(** * avsc: the schema parser and the type objects of [lib/parse.js]

    A shallow embedding of [lib/parse.js]: [parse], the type constructors
    ([PrimitiveType], [WrappedUnionType], [UnwrappedUnionType], [EnumType],
    [FixedType], [MapType], [ArrayType], [RecordType]), their [_check],
    [_read] and [_write] methods, and [Type.prototype.encode] / [decode].

    Type objects live in a heap and are named by their address, so that the
    registry, the unions and the record fields can share them and a record
    can refer to itself.  The one [opts] object that every call of [parse]
    shares is part of the state as well.

    Where the behaviour of the JavaScript is an accident of dynamic typing
    (a [name] that is not a string, a field name that is not an identifier
    in the generated source text, a number written where a string is
    expected, IEEE 754 encodings) the embedding stops with [Unmodelled]
    and no theorem speaks about that run.

    The objects that the code uses as tables ([opts.registry], the
    [indices] of a union or of an enum) start as [{}]: they are finite
    maps of their own properties, read together with the names that every
    object inherits from [Object.prototype] ([Object_prototype_names],
    [inherited]), and written with [table_set], which keeps nothing under
    ['__proto__'].  Among the values an object is the list of its own
    properties, and a property read finds those; the theorems that depend
    on it say so.  The writer of a record keeps the default of a field as
    the value itself, where the generated source text holds its JSON form;
    the two agree on a default that JSON keeps ([json_stable]). *)

From Stdlib Require Import ZArith String Ascii Strings.Byte List Bool Lia.
From stdpp Require Import base option list gmap strings pretty.

Set Warnings "-register-all".

Local Open Scope string_scope.
Local Open Scope Z_scope.
Local Open Scope list_scope.

(** ** JavaScript values *)

(** Numbers are the integer-valued ones; text is kept as its UTF-8 bytes,
    one [ascii] per byte; an object is the list of its own enumerable
    properties in enumeration order. *)
Inductive value : Type :=
| VUndefined
| VNull
| VBool (b : bool)
| VNum (n : Z)
| VStr (s : string)
| VBuf (bytes : list byte)
| VArr (elems : list value)
| VObj (props : list (string * value))
| VFun (name : string).

Definition typeof (v : value) : string :=
  match v with
  | VUndefined => "undefined"
  | VNull => "object"
  | VBool _ => "boolean"
  | VNum _ => "number"
  | VStr _ => "string"
  | VBuf _ | VArr _ | VObj _ => "object"
  | VFun _ => "function"
  end.

(** [!!v] *)
Definition truthy (v : value) : bool :=
  match v with
  | VUndefined | VNull => false
  | VBool b => b
  | VNum n => negb (n =? 0)
  | VStr s => negb (String.eqb s "")
  | _ => true
  end.

Definition is_undefined (v : value) : bool :=
  match v with VUndefined => true | _ => false end.

Definition is_null (v : value) : bool :=
  match v with VNull => true | _ => false end.

(** [typeof v != 'object'] *)
Definition not_object (v : value) : bool :=
  negb (String.eqb (typeof v) "object").

(** ** Outcomes *)

Inductive error : Type :=
| AvscError (message : string) (args : list value)
| Error (message : string) (args : list value)
| TypeError (message : string).

Inductive result (A : Type) : Type :=
| Ok (a : A)
| Throw (e : error)
| OutOfFuel
| Unmodelled.

Arguments Ok {A} a.
Arguments Throw {A} e.
Arguments OutOfFuel {A}.
Arguments Unmodelled {A}.

#[global] Instance result_ret : MRet result := fun A a => Ok a.

#[global] Instance result_bind : MBind result := fun A B k r =>
  match r with
  | Ok a => k a
  | Throw e => Throw e
  | OutOfFuel => OutOfFuel
  | Unmodelled => Unmodelled
  end.

(** ** Property access *)

Fixpoint assoc (k : string) (props : list (string * value)) : option value :=
  match props with
  | [] => None
  | (k', v) :: rest => if String.eqb k' k then Some v else assoc k rest
  end.

(** The property key of an array index, and the index that a property key
    denotes: a decimal numeral without a leading zero. *)
Definition key_of_index (i : nat) : string := pretty i.

Fixpoint digits (s : string) (acc : nat) : option nat :=
  match s with
  | EmptyString => Some acc
  | String c rest =>
      let n := nat_of_ascii c in
      if ((48 <=? n) && (n <=? 57))%nat then digits rest (10 * acc + (n - 48))%nat
      else None
  end.

Definition index_of_key (k : string) : option nat :=
  match k with
  | EmptyString => None
  | String c rest =>
      if Ascii.eqb c "0"%char then
        match rest with EmptyString => Some O | _ => None end
      else digits k O
  end.

(** [obj[k]] and [obj.k]: a [TypeError] on [null] and [undefined]. *)
Definition get_prop (obj : value) (k : string) : result value :=
  match obj with
  | VUndefined | VNull =>
      Throw (TypeError "Cannot read property of undefined or null")
  | VObj props => Ok (default VUndefined (assoc k props))
  | VArr xs =>
      if String.eqb k "length" then Ok (VNum (Z.of_nat (length xs)))
      else Ok (default VUndefined (i ← index_of_key k; xs !! i))
  | VBuf bs =>
      if String.eqb k "length" then Ok (VNum (Z.of_nat (length bs)))
      else Ok (default VUndefined
                 (i ← index_of_key k; b ← bs !! i; Some (VNum (Z.of_N (Byte.to_N b)))))
  | VStr s =>
      if String.eqb k "length" then Ok (VNum (Z.of_nat (String.length s)))
      else Ok VUndefined
  | _ => Ok VUndefined
  end.

(** [Object.keys(obj)] *)
Definition Object_keys (obj : value) : result (list string) :=
  match obj with
  | VUndefined | VNull =>
      Throw (TypeError "Cannot convert undefined or null to object")
  | VObj props => Ok (map fst props)
  | VArr xs => Ok (map key_of_index (seq 0 (length xs)))
  | VBuf bs => Ok (map key_of_index (seq 0 (length bs)))
  | _ => Ok []
  end.

(** Setting the own property [k]: an own property keeps its place. *)
Fixpoint set_prop (k : string) (v : value) (props : list (string * value))
  : list (string * value) :=
  match props with
  | [] => [(k, v)]
  | (k', v') :: rest =>
      if String.eqb k' k then (k, v) :: rest else (k', v') :: set_prop k v rest
  end.

(** [obj[k] = v] and [this.k = v]: ['__proto__'] is the accessor of the
    prototype, and the object gets no property of that name. *)
Definition assign (k : string) (v : value) (props : list (string * value))
  : list (string * value) :=
  if String.eqb k "__proto__" then props else set_prop k v props.

(** [s.indexOf('.') != -1] *)
Fixpoint has_dot (s : string) : bool :=
  match s with
  | EmptyString => false
  | String c rest => if Ascii.eqb c "."%char then true else has_dot rest
  end.

(** The last element of [s.split('.')]. *)
Fixpoint after_last_dot (s : string) : string :=
  match s with
  | EmptyString => EmptyString
  | String c rest =>
      if has_dot s then after_last_dot rest else s
  end.

(** ** The byte cursor *)

Definition byte_of_Z (z : Z) : byte :=
  default x00 (Byte.of_N (Z.to_N (z mod 256))).

Definition Z_of_byte (b : byte) : Z := Z.of_N (Byte.to_N b).

(** Modelled from the spec: the cursor object of [lib/tap.js], which
    [lib/parse.js] requires and which is not among the sources: a buffer
    and a position in it (spec 4.1). *)
Record tap : Type := Tap { buf : list byte; pos : nat }.

Module Tap.

(** Modelled from the spec: [Tap.prototype.isValid], the overflow
    indicator "derived from [position > buffer.length]". *)
Definition isValid (t : tap) : bool := (pos t <=? length (buf t))%nat.

(** Modelled from the spec: a write advances the position by the number
    of bytes produced and commits only the bytes that fit. *)
Definition put (bs : list byte) (t : tap) : tap :=
  {| buf := take (pos t) (buf t)
            ++ take (length (buf t) - pos t) bs
            ++ drop (pos t + length bs) (buf t);
     pos := pos t + length bs |}.

(** Modelled from the spec: the bytes from the position on; a byte past
    the end reads as nothing. *)
Definition rest (t : tap) : list byte := drop (pos t) (buf t).

Definition skip (n : nat) (t : tap) : tap :=
  {| buf := buf t; pos := pos t + n |}.

(** Modelled from the spec: zig-zag, [(n << 1) ^ (n >> 63)] and
    [(u >>> 1) ^ -(u & 1)]. *)
Definition zigzag (n : Z) : Z := Z.lxor (Z.shiftl n 1) (Z.shiftr n 63).

Definition unzigzag (u : Z) : Z := Z.lxor (Z.shiftr u 1) (- Z.land u 1).

(** Modelled from the spec: base-128 groups, least significant first,
    the top bit of a byte set when another group follows; a long takes
    at most ten bytes. *)
Fixpoint varint (groups : nat) (u : Z) : list byte :=
  match groups with
  | O => []
  | S groups' =>
      if u <? 128 then [byte_of_Z u]
      else byte_of_Z (Z.lor (Z.land u 127) 128) :: varint groups' (Z.shiftr u 7)
  end.

Fixpoint unvarint (bs : list byte) : Z * nat :=
  match bs with
  | [] => (0, 1%nat)
  | b :: bs' =>
      if Z_of_byte b <? 128 then (Z_of_byte b, 1%nat)
      else let '(u, k) := unvarint bs' in
           (Z.lor (Z.land (Z_of_byte b) 127) (Z.shiftl u 7), S k)
  end.

(** Modelled from the spec: [writeLong] and [readLong] (and [writeInt],
    [readInt], which share the wire form). *)
Definition writeLong (n : Z) (t : tap) : tap := put (varint 10 (zigzag n)) t.

Definition readLong (t : tap) : Z * tap :=
  let '(u, k) := unvarint (rest t) in (unzigzag u, skip k t).

(** Modelled from the spec: [writeBoolean] and [readBoolean], one byte,
    [0x00] or [0x01]. *)
Definition writeBoolean (b : bool) (t : tap) : tap :=
  put [if b then x01 else x00] t.

Definition readBoolean (t : tap) : bool * tap :=
  (match rest t with b :: _ => negb (Z_of_byte b =? 0) | [] => false end,
   skip 1 t).

(** Modelled from the spec: [writeFixed] and [readFixed], [n] raw bytes. *)
Definition writeFixed (bs : list byte) (n : nat) (t : tap) : tap :=
  {| buf := buf (put (take n bs) t); pos := pos t + n |}.

Definition readFixed (n : nat) (t : tap) : list byte * tap :=
  (take n (rest t), skip n t).

(** Modelled from the spec: [writeBytes] and [readBytes], a long length
    and then the raw bytes. *)
Definition writeBytes (bs : list byte) (t : tap) : tap :=
  put bs (writeLong (Z.of_nat (length bs)) t).

Definition readBytes (t : tap) : list byte * tap :=
  let '(n, t1) := readLong t in readFixed (Z.to_nat n) t1.

(** Modelled from the spec: [writeString] and [readString], a long
    length and then the UTF-8 bytes. *)
Definition writeString (s : string) (t : tap) : tap :=
  writeBytes (list_byte_of_string s) t.

Definition readString (t : tap) : string * tap :=
  let '(bs, t1) := readBytes t in (string_of_list_byte bs, t1).

(** Modelled from the spec: [readArray], blocks of a long count and that
    many items, a negative count being followed by a byte size, until a
    count of zero. *)
Fixpoint readItems {A} (fn : tap -> result (A * tap)) (n : nat) (t : tap)
  : result (list A * tap) :=
  match n with
  | O => Ok ([], t)
  | S n' =>
      '(x, t1) ← fn t;
      '(xs, t2) ← readItems fn n' t1;
      Ok (x :: xs, t2)
  end.

Fixpoint readBlocks {A} (fuel : nat) (fn : tap -> result (A * tap)) (t : tap)
  : result (list A * tap) :=
  match fuel with
  | O => OutOfFuel
  | S fuel' =>
      let '(n, t1) := readLong t in
      if n =? 0 then Ok ([], t1)
      else
        let '(count, t2) :=
          if n <? 0 then (- n, snd (readLong t1)) else (n, t1) in
        '(xs, t3) ← readItems fn (Z.to_nat count) t2;
        '(ys, t4) ← readBlocks fuel' fn t3;
        Ok (xs ++ ys, t4)
  end.

Definition readArray (fuel : nat) (fn : tap -> result (value * tap)) (t : tap)
  : result (value * tap) :=
  '(xs, t1) ← readBlocks fuel fn t;
  Ok (VArr xs, t1).

(** Modelled from the spec: [readMap], "like array but items are
    [string key, value] pairs", each stored under its key. *)
Definition readMap (fuel : nat) (fn : tap -> result (value * tap)) (t : tap)
  : result (value * tap) :=
  '(kvs, t1) ← readBlocks fuel
                 (fun t => let '(k, t1) := readString t in
                           '(v, t2) ← fn t1; Ok ((k, v), t2)) t;
  Ok (VObj (fold_left (fun props kv => assign kv.1 kv.2 props) kvs []), t1).

(** Modelled from the spec: [writeArray], one block of a count and the
    items when there are any, then a count of zero. *)
Fixpoint writeItems {A} (fn : A -> tap -> result tap) (xs : list A) (t : tap)
  : result tap :=
  match xs with
  | [] => Ok t
  | x :: xs' => t1 ← fn x t; writeItems fn xs' t1
  end.

Definition writeBlock {A} (fn : A -> tap -> result tap) (xs : list A) (t : tap)
  : result tap :=
  t1 ← match xs with
       | [] => Ok t
       | _ => writeItems fn xs (writeLong (Z.of_nat (length xs)) t)
       end;
  Ok (writeLong 0 t1).

Definition writeArray (fn : value -> tap -> result tap) (arr : list value)
  (t : tap) : result tap :=
  writeBlock fn arr t.

(** Modelled from the spec: [writeMap], the own keys of the object in
    enumeration order, each followed by its value. *)
Definition writeMap (fn : value -> tap -> result tap) (obj : value) (t : tap)
  : result tap :=
  keys ← Object_keys obj;
  writeBlock (fun k t => v ← get_prop obj k; fn v (writeString k t)) keys t.

End Tap.

(** ** Object literals used as tables *)

(** The properties that an object literal inherits from
    [Object.prototype]: [table[s]] is defined for these also when nothing
    was stored under [s]. *)
Definition Object_prototype_names : list string :=
  ["constructor"; "toString"; "toLocaleString"; "valueOf"; "hasOwnProperty";
   "isPrototypeOf"; "propertyIsEnumerable"; "__proto__"; "__defineGetter__";
   "__defineSetter__"; "__lookupGetter__"; "__lookupSetter__"].

Definition inherited (s : string) : bool :=
  existsb (String.eqb s) Object_prototype_names.

(** [table[k] = i] for a number [i]: ['__proto__'] is the accessor of the
    prototype, whose setter drops a number. *)
Definition table_set (k : string) (i : nat) (table : gmap string nat)
  : gmap string nat :=
  if String.eqb k "__proto__" then table else <[k := i]> table.

(** [table[k] !== undefined] *)
Definition table_defined (table : gmap string nat) (k : string) : bool :=
  bool_decide (is_Some (table !! k)) || inherited k.

(** ** Type objects *)

(** A type object is named by its address in the heap. *)
Abbreviation loc := nat (only parsing).

(** A field of a record, [{name, doc, type, 'default'}].  [field_bound]
    records what [generateReader] and [generateWriter] found when they read
    [field.type._read] and [field.type._write]: the method of a finished
    type object, or still the abstract method of [Type.prototype], which a
    record under construction has. *)
Record field : Type := Field {
  field_name : string;
  field_doc : value;
  field_type : loc;
  field_default : value;
  field_bound : bool
}.

Inductive node : Type :=
| NPrimitive (name : string)
| NWrappedUnion (types : list loc) (indices : gmap string nat)
    (constructors : list (option string))
| NUnwrappedUnion (types : list loc) (indices : gmap string nat)
| NEnum (name : string) (doc : value) (symbols : list string)
    (indices : gmap string nat)
| NFixed (name : string) (size : Z)
| NMap (valuesType : loc)
| NArray (itemsType : loc)
| NRecord (name : string) (doc : value) (fields : list field) (built : bool).

(** [type.name], the empty string standing for [undefined]. *)
Definition type_name (n : node) : string :=
  match n with
  | NEnum name _ _ _ | NFixed name _ | NRecord name _ _ _ => name
  | _ => ""
  end.

(** [type.getTypeName()]; a union inherits the method of [Type.prototype],
    which returns an [Error] object ([None] here). *)
Definition getTypeName (n : node) : option string :=
  match n with
  | NPrimitive name => Some name
  | NEnum _ _ _ _ => Some "enum"
  | NFixed _ _ => Some "fixed"
  | NMap _ => Some "map"
  | NArray _ => Some "array"
  | NRecord _ _ _ _ => Some "record"
  | NWrappedUnion _ _ _ | NUnwrappedUnion _ _ => None
  end.

(** [type.name || type.getTypeName()] *)
Definition branch_name (n : node) : option string :=
  if String.eqb (type_name n) "" then getTypeName n else Some (type_name n).

(** The property key a branch name is used as. *)
Definition key_of_name (name : option string) : string :=
  default "Error: abstract" name.

(** [type instanceof UnionType] *)
Definition is_union (n : node) : bool :=
  match n with
  | NWrappedUnion _ _ _ | NUnwrappedUnion _ _ => true
  | _ => false
  end.

(** Whether the object has its own [_read], [_write] and [_check]. *)
Definition is_built (n : node) : bool :=
  match n with
  | NRecord _ _ _ built => built
  | _ => true
  end.

(** [xs[i]] for a number [i]. *)
Definition at_index {A} (xs : list A) (i : Z) : option A :=
  if i <? 0 then None else xs !! Z.to_nat i.

(** [xs.some(f)] and [xs.every(f)] for an [f] that may throw. *)
Fixpoint some {A} (f : A -> result bool) (xs : list A) : result bool :=
  match xs with
  | [] => Ok false
  | x :: xs' => b ← f x; if b : bool then Ok true else some f xs'
  end.

Fixpoint every {A} (f : A -> result bool) (xs : list A) : result bool :=
  match xs with
  | [] => Ok true
  | x :: xs' => b ← f x; if b : bool then every f xs' else Ok false
  end.

Definition MAX_SAFE_INTEGER : Z := 9007199254740991.
Definition MIN_SAFE_INTEGER : Z := -9007199254740991.

(** [o | 0] *)
Definition to_int32 (n : Z) : Z := (n + 2 ^ 31) mod 2 ^ 32 - 2 ^ 31.

Arguments to_int32 : simpl never.

(** Whether the conversion of [v] to a primitive runs built-in methods
    only: no object in it has a [toString] or a [valueOf] of its own. *)
Fixpoint converts_plainly (v : value) : bool :=
  match v with
  | VObj props =>
      negb (existsb (fun p => String.eqb p.1 "toString" || String.eqb p.1 "valueOf")
              props)
  | VArr elems => forallb converts_plainly elems
  | _ => true
  end.

(** The conversion to a primitive that [o | 0] starts with, for what may
    go wrong in it.  An object asks its [valueOf] and then its [toString];
    the inherited [valueOf] returns the object and the inherited
    [toString] a string, an own one that is no function is passed over,
    and with none left the conversion throws.  An array joins the
    conversions of its elements.  Calls of functions of the object's own
    are not modelled. *)
Definition ToPrimitive (o : value) : result unit :=
  match o with
  | VObj props =>
      match assoc "valueOf" props with
      | Some (VFun _) => Unmodelled
      | _ =>
          match assoc "toString" props with
          | Some (VFun _) => Unmodelled
          | Some _ => Throw (TypeError "Cannot convert object to primitive value")
          | None => Ok tt
          end
      end
  | VArr elems => if forallb converts_plainly elems then Ok tt else Unmodelled
  | _ => Ok tt
  end.

(** The [_check] that [PrimitiveType] installs for each name. *)
Definition PrimitiveType_check (name : string) (o : value) : result bool :=
  if String.eqb name "null" then Ok (is_null o)
  else if String.eqb name "boolean" then
    (* o !== !o *)
    Ok (match o with VBool b => negb (Bool.eqb b (negb (truthy o))) | _ => true end)
  else if String.eqb name "int" then
    (* o === (o | 0) *)
    match o with
    | VNum n => Ok (n =? to_int32 n)
    | _ => _ ← ToPrimitive o; Ok false
    end
  else if String.eqb name "long" then
    Ok (match o with
        | VNum n => (n <=? MAX_SAFE_INTEGER) && (MIN_SAFE_INTEGER <=? n)
        | _ => false
        end)
  else if String.eqb name "float" then
    (* the double nearest to 3.4028234e38 *)
    Ok (match o with
        | VNum n => Z.abs n <? 340282339999999992395853996843190976512
        | _ => false
        end)
  else if String.eqb name "double" then
    Ok (match o with VNum _ => true | _ => false end)
  else if String.eqb name "string" then
    Ok (match o with VStr _ => true | _ => false end)
  else if String.eqb name "bytes" then
    Ok (match o with VBuf _ => true | _ => false end)
  else Unmodelled.

Fixpoint _check (fuel : nat) (h : list node) (l : loc) (obj : value)
  : result bool :=
  match fuel with
  | O => OutOfFuel
  | S fuel' =>
      match h !! l with
      | None => Unmodelled
      | Some (NPrimitive name) => PrimitiveType_check name obj
      | Some (NWrappedUnion types indices _) =>
          if not_object obj then Ok false
          else if is_null obj then Ok (bool_decide (is_Some (indices !! "null")))
          else
            keys ← Object_keys obj;
            let name := default "undefined" (head keys) in
            match indices !! name with
            | None =>
                (* an inherited member is no index of [types] *)
                if inherited name
                then Throw (TypeError "Cannot read property '_check' of undefined")
                else Ok false
            | Some index =>
                match types !! index with
                | None => Throw (TypeError "Cannot read property '_check' of undefined")
                | Some t => v ← get_prop obj name; _check fuel' h t v
                end
            end
      | Some (NUnwrappedUnion types _) =>
          some (fun t => _check fuel' h t obj) types
      | Some (NEnum _ _ _ indices) =>
          Ok (match obj with
              | VStr s => table_defined indices s
              | _ => false
              end)
      | Some (NFixed _ size) =>
          Ok (match obj with
              | VBuf bs => Z.of_nat (length bs) =? size
              | _ => false
              end)
      | Some (NMap valuesType) =>
          if not_object obj || (match obj with VArr _ => true | _ => false end)
          then Ok false
          else
            keys ← Object_keys obj;
            every (fun k => v ← get_prop obj k; _check fuel' h valuesType v) keys
      | Some (NArray itemsType) =>
          match obj with
          | VArr elems => every (fun elem => _check fuel' h itemsType elem) elems
          | _ => Ok false
          end
      | Some (NRecord _ _ fields built) =>
          if negb built then Throw (Error "abstract" [])
          else if not_object obj then Ok false
          else
            every (fun f =>
                     v ← get_prop obj (field_name f);
                     if is_undefined (field_default f) then
                       _check fuel' h (field_type f) v
                     else if is_undefined v then Ok true
                     else _check fuel' h (field_type f) v)
                  fields
      end
  end.

(** [Type.prototype.isValid] *)
Definition isValid (fuel : nat) (h : list node) (l : loc) (obj : value)
  : result bool :=
  _check fuel h l obj.

(** The [_write] and [_read] that [PrimitiveType] takes from
    [Tap.prototype], by name.  [writeFloat], [writeDouble] and their
    readers are not modelled. *)
Definition PrimitiveType_write (name : string) (o : value) (t : tap)
  : result tap :=
  if String.eqb name "null" then Ok t
  else if String.eqb name "boolean" then
    match o with VBool b => Ok (Tap.writeBoolean b t) | _ => Unmodelled end
  else if String.eqb name "int" || String.eqb name "long" then
    match o with VNum n => Ok (Tap.writeLong n t) | _ => Unmodelled end
  else if String.eqb name "string" then
    match o with VStr s => Ok (Tap.writeString s t) | _ => Unmodelled end
  else if String.eqb name "bytes" then
    match o with VBuf bs => Ok (Tap.writeBytes bs t) | _ => Unmodelled end
  else Unmodelled.

Definition PrimitiveType_read (name : string) (t : tap) : result (value * tap) :=
  if String.eqb name "null" then Ok (VNull, t)
  else if String.eqb name "boolean" then
    let '(b, t1) := Tap.readBoolean t in Ok (VBool b, t1)
  else if String.eqb name "int" || String.eqb name "long" then
    let '(n, t1) := Tap.readLong t in Ok (VNum n, t1)
  else if String.eqb name "string" then
    let '(s, t1) := Tap.readString t in Ok (VStr s, t1)
  else if String.eqb name "bytes" then
    let '(bs, t1) := Tap.readBytes t in Ok (VBuf bs, t1)
  else Unmodelled.

(** The first branch of an unwrapped union whose [_check] accepts [obj],
    with its index: the [for] loop of [UnwrappedUnionType._write]. *)
Fixpoint first_valid (check : loc -> result bool) (i : nat) (types : list loc)
  : result (option (nat * loc)) :=
  match types with
  | [] => Ok None
  | type :: types' =>
      b ← check type;
      if b : bool then Ok (Some (i, type)) else first_valid check (S i) types'
  end.

Fixpoint _write (fuel : nat) (h : list node) (l : loc) (obj : value) (t : tap)
  : result tap :=
  match fuel with
  | O => OutOfFuel
  | S fuel' =>
      match h !! l with
      | None => Unmodelled
      | Some (NPrimitive name) => PrimitiveType_write name obj t
      | Some (NWrappedUnion types indices _) =>
          if not_object obj then Throw (Error "invalid union: " [obj])
          else
            name ← (if is_null obj then Ok "null"
                    else keys ← Object_keys obj;
                         Ok (default "undefined" (head keys)));
            match indices !! name with
            | None =>
                (* the long writer is not modelled on an inherited member *)
                if inherited name then Unmodelled
                else Throw (Error "no such name in union: " [VStr name])
            | Some index =>
                match types !! index with
                | None => Throw (TypeError "Cannot read property '_write' of undefined")
                | Some type =>
                    v ← (if is_null obj then Ok VNull else get_prop obj name);
                    _write fuel' h type v (Tap.writeLong (Z.of_nat index) t)
                end
            end
      | Some (NUnwrappedUnion types _) =>
          found ← first_valid (fun type => _check fuel' h type obj) 0 types;
          match found with
          | Some (i, type) => _write fuel' h type obj (Tap.writeLong (Z.of_nat i) t)
          | None => Throw (Error "invalid union value: " [obj])
          end
      | Some (NEnum name _ _ indices) =>
          match obj with
          | VStr s =>
              match indices !! s with
              | None =>
                  if inherited s then Unmodelled
                  else Throw (Error "invalid enum value: " [VStr name; obj])
              | Some index => Ok (Tap.writeLong (Z.of_nat index) t)
              end
          | _ => Unmodelled
          end
      | Some (NFixed _ size) =>
          match obj with
          | VBuf bs => Ok (Tap.writeFixed bs (Z.to_nat size) t)
          | _ => Unmodelled
          end
      | Some (NMap valuesType) =>
          Tap.writeMap (fun v t => _write fuel' h valuesType v t) obj t
      | Some (NArray itemsType) =>
          match obj with
          | VArr arr => Tap.writeArray (fun v t => _write fuel' h itemsType v t) arr t
          | _ => Unmodelled
          end
      | Some (NRecord _ _ fields built) =>
          if negb built then Throw (Error "abstract" [])
          else
            Tap.writeItems
              (fun f t =>
                 v ← get_prop obj (field_name f);
                 let v := if is_undefined (field_default f) then v
                          else if is_undefined v then field_default f else v in
                 if field_bound f then _write fuel' h (field_type f) v t
                 else Throw (Error "abstract" []))
              fields t
      end
  end.

(** Reading one thing after another from the cursor. *)
Fixpoint read_each {A B} (rd : A -> tap -> result (B * tap)) (xs : list A)
  (t : tap) : result (list B * tap) :=
  match xs with
  | [] => Ok ([], t)
  | x :: xs' =>
      '(y, t1) ← rd x t;
      '(ys, t2) ← read_each rd xs' t1;
      Ok (y :: ys, t2)
  end.

(** [new Class(r0.call(this), r1.call(this), ...)]: the arguments are read
    in order, then the constructor sets the fields in order. *)
Fixpoint _read (fuel : nat) (h : list node) (l : loc) (t : tap)
  : result (value * tap) :=
  match fuel with
  | O => OutOfFuel
  | S fuel' =>
      match h !! l with
      | None => Unmodelled
      | Some (NPrimitive name) => PrimitiveType_read name t
      | Some (NWrappedUnion types _ constructors) =>
          let '(index, t1) := Tap.readLong t in
          match at_index constructors index with
          | Some (Some name) =>
              match at_index types index with
              | None => Throw (TypeError "Cannot read property '_read' of undefined")
              | Some type =>
                  '(v, t2) ← _read fuel' h type t1;
                  Ok (VObj [(name, v)], t2)
              end
          | _ => Ok (VNull, t1)
          end
      | Some (NUnwrappedUnion types _) =>
          let '(index, t1) := Tap.readLong t in
          match at_index types index with
          | None => Throw (TypeError "Cannot read property '_read' of undefined")
          | Some type => _read fuel' h type t1
          end
      | Some (NEnum _ _ symbols _) =>
          let '(index, t1) := Tap.readLong t in
          Ok (match at_index symbols index with
              | Some s => VStr s
              | None => VUndefined
              end, t1)
      | Some (NFixed _ size) =>
          let '(bs, t1) := Tap.readFixed (Z.to_nat size) t in Ok (VBuf bs, t1)
      | Some (NMap valuesType) =>
          Tap.readMap fuel' (fun t => _read fuel' h valuesType t) t
      | Some (NArray itemsType) =>
          Tap.readArray fuel' (fun t => _read fuel' h itemsType t) t
      | Some (NRecord _ _ fields built) =>
          if negb built then Throw (Error "abstract" [])
          else
            '(args, t1) ←
              read_each
                (fun f t =>
                   '(v, t1) ← (if field_bound f then _read fuel' h (field_type f) t
                               else Throw (Error "abstract" []));
                   Ok ((field_name f, v), t1))
                fields t;
            Ok (VObj (fold_left (fun props kv => assign kv.1 kv.2 props) args []), t1)
      end
  end.

(** ** The top-level codec *)

(** [Type.prototype.decode] *)
Definition decode (fuel : nat) (h : list node) (l : loc) (buf : list byte)
  : result value :=
  let tap := Tap buf 0 in
  '(obj, tap) ← _read fuel h l tap;
  if negb (Tap.isValid tap) then Throw (Error "truncated buffer" [])
  else Ok obj.

(** The options of [encode]; a [size] of [0] stands for an absent one. *)
Record encode_opts : Type := EncodeOpts { size : nat; unsafe : bool }.

(** [tap.isValid] without a call: the method itself, a function object. *)
Definition tap_isValid : value := VFun "isValid".

(** [Type.prototype.encode] *)
Definition encode (fuel : nat) (h : list node) (l : loc) (obj : value)
  (opts : option encode_opts) : result (list byte) :=
  valid ← (if match opts with Some o => unsafe o | None => false end
           then Ok true else isValid fuel h l obj);
  if negb valid then Throw (Error "invalid object" [])
  else
    let size := match opts with Some o => size o | None => O end in
    let size := if (size =? 0)%nat then 1024%nat else size in
    let tap := Tap (replicate size x00) 0 in
    tap ← _write fuel h l obj tap;
    tap ← (if negb (truthy tap_isValid) then
             (* We overflowed the buffer, need to resize. *)
             _write fuel h l obj (Tap (replicate (pos tap) x00) 0)
           else Ok tap);
    Ok (take (pos tap) (buf tap)).

(** ** Parsing *)

Definition PRIMITIVES : list string :=
  ["null"; "boolean"; "int"; "long"; "float"; "double"; "bytes"; "string"].

Definition is_primitive (s : string) : bool :=
  existsb (String.eqb s) PRIMITIVES.

(** The heap of type objects together with the one [opts] object of a
    parse: [registry] ([None] while [opts.registry] is not set),
    [namespace] (the empty string for a falsy one) and [unwrapUnions]. *)
Record state : Type := State {
  heap : list node;
  registry : option (gmap string loc);
  namespace : string;
  unwrapUnions : bool
}.

Definition the_registry (st : state) : gmap string loc :=
  default ∅ (registry st).

Definition set_namespace (ns : string) (st : state) : state :=
  {| heap := heap st; registry := registry st; namespace := ns;
     unwrapUnions := unwrapUnions st |}.

(** [new T(...)]: a fresh object. *)
Definition alloc (n : node) (st : state) : loc * state :=
  (length (heap st),
   {| heap := heap st ++ [n]; registry := registry st;
      namespace := namespace st; unwrapUnions := unwrapUnions st |}).

(** [opts.registry[name] = this] *)
Definition register (name : string) (l : loc) (st : state) : state :=
  {| heap := heap st; registry := Some (<[name := l]> (the_registry st));
     namespace := namespace st; unwrapUnions := unwrapUnions st |}.

Definition set_node (l : loc) (n : node) (st : state) : state :=
  {| heap := <[l := n]> (heap st); registry := registry st;
     namespace := namespace st; unwrapUnions := unwrapUnions st |}.

(** [Type.createRegistry], on an [opts] that has no registry yet. *)
Definition createRegistry (st : state) : state :=
  fold_left (fun st name =>
               let '(l, st) := alloc (NPrimitive name) st in register name l st)
            PRIMITIVES st.

(** A schema attribute that the code uses as a string: the empty string
    for a falsy value, not modelled for a truthy one that is no string. *)
Definition attr (schema : value) (k : string) : result string :=
  v ← get_prop schema k;
  match v with
  | VStr s => Ok s
  | _ => if truthy v then Unmodelled else Ok ""
  end.

(** [getOpts] *)
Definition getOpts (schema : value) (st : state) : result state :=
  let st := match registry st with Some _ => st | None => createRegistry st end in
  ns ← attr schema "namespace";
  Ok (set_namespace (if String.eqb ns "" then namespace st else ns) st).

(** [getQualifiedName]; the namespace is looked at as a string only where
    the name needs one. *)
Definition getQualifiedName (schema : value) (namespace : string)
  : result string :=
  name ← attr schema "name";
  if negb (String.eqb name "") && negb (has_dot name) then
    ns ← attr schema "namespace";
    let namespace := if String.eqb ns "" then namespace else ns in
    if negb (String.eqb namespace "") then Ok (namespace +:+ "." +:+ name)
    else Ok name
  else Ok name.

(** Source text: the characters of an identifier, the reserved words, and
    the names that [new Function] accepts where the code splices them. *)
Definition is_id_start (c : ascii) : bool :=
  let n := nat_of_ascii c in
  ((65 <=? n) && (n <=? 90) || (97 <=? n) && (n <=? 122)
   || (n =? 95) || (n =? 36))%nat.

Definition is_id_part (c : ascii) : bool :=
  let n := nat_of_ascii c in
  (is_id_start c || (48 <=? n) && (n <=? 57))%nat.

Definition string_forall (p : ascii -> bool) (s : string) : bool :=
  forallb p (list_ascii_of_string s).

Definition reserved_words : list string :=
  ["break"; "case"; "catch"; "class"; "const"; "continue"; "debugger";
   "default"; "delete"; "do"; "else"; "enum"; "export"; "extends"; "false";
   "finally"; "for"; "function"; "if"; "import"; "in"; "instanceof"; "new";
   "null"; "return"; "super"; "switch"; "this"; "throw"; "true"; "try";
   "typeof"; "var"; "void"; "while"; "with"].

Definition is_property_name (s : string) : bool :=
  match s with
  | EmptyString => false
  | String c rest => is_id_start c && string_forall is_id_part rest
  end.

Definition is_identifier (s : string) : bool :=
  is_property_name s && negb (existsb (String.eqb s) reserved_words).

Definition is_quotable (s : string) : bool :=
  string_forall (fun c =>
                   let n := nat_of_ascii c in
                   ((32 <=? n) && negb (n =? 39) && negb (n =? 92))%nat) s.

(** Running [parse] over the elements of an array, as [Array.prototype.map]
    does, every call working on the same [opts]. *)
Fixpoint parse_each {A B} (f : A -> state -> result (B * state)) (xs : list A)
  (st : state) : result (list B * state) :=
  match xs with
  | [] => Ok ([], st)
  | x :: xs' =>
      '(y, st1) ← f x st;
      '(ys, st2) ← parse_each f xs' st1;
      Ok (y :: ys, st2)
  end.

(** The loop that fills [indices] in both union constructors. *)
Fixpoint union_indices (h : list node) (i : nat) (types : list loc)
  (indices : gmap string nat) : result (gmap string nat) :=
  match types with
  | [] => Ok indices
  | type :: types' =>
      match h !! type with
      | None => Unmodelled
      | Some n =>
          let name := key_of_name (branch_name n) in
          if table_defined indices name
          then Throw (AvscError "duplicate union name: %j" [VStr name])
          else union_indices h (S i) types' (table_set name i indices)
      end
  end.

(** The [constructors] of a wrapped union: [null] for the branch called
    ['null'], else a function that sets the property called as the branch. *)
Definition union_constructor (h : list node) (type : loc)
  : result (option string) :=
  match h !! type with
  | None => Unmodelled
  | Some n =>
      match branch_name n with
      | None => Throw (TypeError "name.indexOf is not a function")
      | Some name =>
          if String.eqb name "null" then Ok None
          else if (if has_dot name then is_quotable name else is_property_name name)
          then Ok (Some name)
          else Unmodelled
      end
  end.

Fixpoint result_map {A B} (f : A -> result B) (xs : list A) : result (list B) :=
  match xs with
  | [] => Ok []
  | x :: xs' => y ← f x; ys ← result_map f xs'; Ok (y :: ys)
  end.

(** [new Buffer(value, 'binary')] for the default of a [bytes] or [fixed]
    field: one byte for each character.  Modelled for a string of ASCII
    characters, where the bytes are those of the text. *)
Definition Buffer_binary (v : value) : result value :=
  match v with
  | VStr s =>
      if string_forall (fun c => (nat_of_ascii c <? 128)%nat) s
      then Ok (VBuf (list_byte_of_string s))
      else Unmodelled
  | _ => Unmodelled
  end.

(** The default of a field as it is checked: a buffer for a [fixed] or a
    [bytes] field. *)
Definition default_value (n : node) (v : value) : result value :=
  if match n with NFixed _ _ => true | _ => false end
     || bool_decide (getTypeName n = Some "bytes")
  then Buffer_binary v
  else Ok v.

(** The type object a default is checked against: "Avro forces the default
    value to be of the first type in the enum", so the first branch for a
    union [type], and [type] itself otherwise. *)
Definition default_type (n : node) (type : loc) : option loc :=
  match n with
  | NWrappedUnion types _ _ | NUnwrappedUnion types _ => head types
  | _ => Some type
  end.

Section Constructors.

(** The recursive calls of [parse], and the fuel left for the validity
    checks of defaults. *)
Variable parse : value -> state -> result (loc * state).
Variable fuel : nat.

(** [UnionType] *)
Definition UnionType (schema : value) (st : state)
  : result (list loc * state) :=
  match schema with
  | VArr [] => Throw (AvscError "empty union" [])
  | VArr branches =>
      st ← getOpts schema st;
      parse_each parse branches st
  | _ => Throw (AvscError "non-array union schema: %j" [schema])
  end.

(** [WrappedUnionType] *)
Definition WrappedUnionType (schema : value) (st : state)
  : result (loc * state) :=
  '(types, st) ← UnionType schema st;
  indices ← union_indices (heap st) 0 types ∅;
  constructors ← result_map (union_constructor (heap st)) types;
  Ok (alloc (NWrappedUnion types indices constructors) st).

(** [UnwrappedUnionType] *)
Definition UnwrappedUnionType (schema : value) (st : state)
  : result (loc * state) :=
  '(types, st) ← UnionType schema st;
  indices ← union_indices (heap st) 0 types ∅;
  Ok (alloc (NUnwrappedUnion types indices) st).

(** The loop that fills [indices] in [EnumType]; a later occurrence of a
    symbol replaces the index of an earlier one, and the symbol
    ['__proto__'] gets none. *)
Fixpoint enum_indices (i : nat) (symbols : list value)
  (indices : gmap string nat) : result (list string * gmap string nat) :=
  match symbols with
  | [] => Ok ([], indices)
  | VStr s :: symbols' =>
      '(ss, indices) ← enum_indices (S i) symbols' (table_set s i indices);
      Ok (s :: ss, indices)
  | _ => Unmodelled
  end.

(** [EnumType] *)
Definition EnumType (schema : value) (st : state) : result (loc * state) :=
  name ← attr schema "name";
  if String.eqb name "" then
    Throw (AvscError "missing enum name in schema: %j" [schema])
  else
    symbols ← get_prop schema "symbols";
    match symbols with
    | VArr ((_ :: _) as symbols) =>
        st ← getOpts schema st;
        '(symbols, indices) ← enum_indices 0 symbols ∅;
        name ← getQualifiedName schema (namespace st);
        doc ← get_prop schema "doc";
        if String.eqb name "__proto__" then Unmodelled
        else
          let '(l, st) := alloc (NEnum name doc symbols indices) st in
          Ok (l, register name l st)
    | _ => Throw (AvscError "invalid %j enum symbols: %j" [VStr name; schema])
    end.

(** [FixedType] *)
Definition FixedType (schema : value) (st : state) : result (loc * state) :=
  name ← attr schema "name";
  if String.eqb name "" then Throw (AvscError "missing fixed name: %j" [schema])
  else
    size ← get_prop schema "size";
    match size with
    | VNum n =>
        if negb (n =? to_int32 n) || (n <? 1) then
          Throw (AvscError "invalid %j fixed size: %j" [VStr name; size])
        else
          st ← getOpts schema st;
          name ← getQualifiedName schema (namespace st);
          if String.eqb name "__proto__" then Unmodelled
          else
            let '(l, st) := alloc (NFixed name n) st in
            Ok (l, register name l st)
    | _ =>
        (* schema.size | 0 *)
        _ ← ToPrimitive size;
        Throw (AvscError "invalid %j fixed size: %j" [VStr name; size])
    end.

(** [MapType] *)
Definition MapType (schema : value) (st : state) : result (loc * state) :=
  values ← get_prop schema "values";
  if negb (truthy values) then
    Throw (AvscError "missing map values: %j" [schema])
  else
    st ← getOpts schema st;
    '(valuesType, st) ← parse values st;
    Ok (alloc (NMap valuesType) st).

(** [ArrayType] *)
Definition ArrayType (schema : value) (st : state) : result (loc * state) :=
  items ← get_prop schema "items";
  if negb (truthy items) then
    Throw (AvscError "missing array items: %j" [schema])
  else
    st ← getOpts schema st;
    '(itemsType, st) ← parse items st;
    Ok (alloc (NArray itemsType) st).

(** The callback of [schema.fields.map] in [RecordType], on one entry of
    [schema.fields]; [self] is the name of the record, for the messages. *)
Definition RecordType_field (self : string) (entry : value) (st : state)
  : result (field * state) :=
  if not_object entry then
    Throw (AvscError "invalid field in %j: %j" [VStr self; entry])
  else
    name ← get_prop entry "name";
    match name with
    | VStr name =>
        type_schema ← get_prop entry "type";
        '(type, st) ← parse type_schema st;
        n ← match heap st !! type with Some n => Ok n | None => Unmodelled end;
        value ← get_prop entry "default";
        doc ← get_prop entry "doc";
        if is_undefined value then Ok (Field name doc type value true, st)
        else
          value ← default_value n value;
          first ← match default_type n type with
                  | Some first => Ok first
                  | None => Throw (TypeError "Cannot read property 'isValid' of undefined")
                  end;
          valid ← isValid fuel (heap st) first value;
          if negb valid then
            Throw (AvscError "invalid default for field %j in %j: %j"
                     [VStr name; VStr self; value])
          else Ok (Field name doc type value true, st)
    | _ => Throw (AvscError "invalid field in %j: %j" [VStr self; entry])
    end.

(** What [generateReader] and [generateWriter] capture for a field. *)
Definition bind_field (h : list node) (f : field) : field :=
  {| field_name := field_name f; field_doc := field_doc f;
     field_type := field_type f; field_default := field_default f;
     field_bound := match h !! field_type f with
                    | Some n => is_built n
                    | None => false
                    end |}.

(** The test at the head of the loop of [generateWriter]. *)
Definition default_unsupported (h : list node) (f : field) : bool :=
  negb (is_undefined (field_default f))
  && match h !! field_type f with
     | Some n => bool_decide (getTypeName n = Some "bytes")
                 || bool_decide (getTypeName n = Some "fixed")
     | None => false
     end.

(** [RecordType] *)
Definition RecordType (schema : value) (st : state) : result (loc * state) :=
  name ← attr schema "name";
  if String.eqb name "" then Throw (AvscError "missing record name: %j" [schema])
  else
    st ← getOpts schema st;
    name ← getQualifiedName schema (namespace st);
    doc ← get_prop schema "doc";
    if String.eqb name "__proto__" then Unmodelled
    else
    let '(self, st) := alloc (NRecord name doc [] false) st in
    let st := register name self st in
    let unqualifiedName := after_last_dot name in
    fields ← get_prop schema "fields";
    match fields with
    | VArr fields =>
        '(fields, st) ← parse_each (RecordType_field name) fields st;
        if negb (is_identifier unqualifiedName
                 && forallb (fun f => is_identifier (field_name f)
                                      && negb (String.eqb (field_name f) "__proto__"))
                      fields)
        then Unmodelled
        else
          let fields := map (bind_field (heap st)) fields in
          if existsb (default_unsupported (heap st)) fields then
            Throw (Error "bytes and fixed defaults are not supported yet" [])
          else Ok (self, set_node self (NRecord name doc fields true) st)
    | _ => Throw (AvscError "invalid %j record fields: %j" [VStr name; schema])
    end.

(** The [switch] of [parse] over [schema.type]: the non-union complex
    types. *)
Definition parse_complex (schema : value) (st : state) : result (loc * state) :=
  type ← get_prop schema "type";
  match type with
  | VStr type =>
      if is_primitive type then
        match the_registry st !! type with
        | Some t => Ok (t, st) (* Reuse primitive instances. *)
        | None => Unmodelled
        end
      else if String.eqb type "array" then ArrayType schema st
      else if String.eqb type "enum" then EnumType schema st
      else if String.eqb type "fixed" then FixedType schema st
      else if String.eqb type "map" then MapType schema st
      else if String.eqb type "record" then RecordType schema st
      else Throw (AvscError "unknown type: %j" [VStr type])
  | _ => Throw (AvscError "unknown type: %j" [type])
  end.

End Constructors.

(** [parse] *)
Fixpoint parse (fuel : nat) (schema : value) (st : state)
  : result (loc * state) :=
  match fuel with
  | O => OutOfFuel
  | S fuel' =>
      st ← getOpts schema st;
      match schema with
      | VStr schema => (* Type reference. *)
          let schema :=
            if negb (String.eqb (namespace st) "") && negb (has_dot schema)
               && negb (is_primitive schema) (* Primitives can't be namespaced. *)
            then namespace st +:+ "." +:+ schema
            else schema in
          match the_registry st !! schema with
          | Some type => Ok (type, st)
          | None =>
              (* an inherited member of the registry is returned as a type *)
              if inherited schema then Unmodelled
              else Throw (Error "missing name: " [VStr schema])
          end
      | VArr _ => (* Union. *)
          if unwrapUnions st then UnwrappedUnionType (parse fuel') schema st
          else WrappedUnionType (parse fuel') schema st
      | _ => parse_complex (parse fuel') fuel' schema st
      end
  end.

(** The [opts] a caller passes: nothing, or a namespace and the
    [unwrapUnions] flag, with a fresh registry. *)
Definition new_opts (namespace : string) (unwrapUnions : bool) : state :=
  {| heap := []; registry := None; namespace := namespace;
     unwrapUnions := unwrapUnions |}.

(** ** Notions the properties are stated with *)

(** The branch of a union that a property key names: a branch [t] whose
    [type.name || type.getTypeName()] is that key. *)
Definition names_branch (h : list node) (types : list loc) (k : string)
  (t : loc) : Prop :=
  exists (i : nat) (n : node),
    types !! i = Some t /\ h !! t = Some n /\ key_of_name (branch_name n) = k.

(** [Object.keys(v)[0]], as a property key. *)
Definition first_key (v : value) : string :=
  match Object_keys v with
  | Ok (k :: _) => k
  | _ => "undefined"
  end.

(** The key under which the registry holds a type object: the name of a
    primitive, the qualified name of a named type. *)
Definition node_key (n : node) : string :=
  match n with
  | NPrimitive name => name
  | _ => type_name n
  end.

(** What a call of [parse] that starts in [st] and ends in [st'] keeps:
    the type objects there were, untouched; the registry entries there
    were, unless a later declaration took the name; and every entry it
    adds leads to a new type object of that name. *)
Definition extends (st st' : state) : Prop :=
  heap st `prefix_of` heap st'
  /\ unwrapUnions st' = unwrapUnions st
  /\ (forall k l, the_registry st !! k = Some l ->
                  exists l', the_registry st' !! k = Some l'
                             /\ (l' = l \/ (length (heap st) <= l')%nat))
  /\ (forall k l', the_registry st' !! k = Some l' ->
                   the_registry st !! k = Some l'
                   \/ ((length (heap st) <= l')%nat
                       /\ exists n, heap st' !! l' = Some n /\ node_key n = k)).




(** What the constructors leave in the tables of a type object: the
    constructor of a wrapped union at the index of a name is the one for
    that name, and an enum has each symbol at its index. *)
Definition wf_node (n : node) : Prop :=
  match n with
  | NWrappedUnion types indices constructors =>
      forall name i,
        indices !! name = Some i ->
        constructors !! i
        = Some (if String.eqb name "null" then None else Some name)
  | NEnum _ _ symbols indices =>
      forall s i, indices !! s = Some i -> symbols !! i = Some s
  | _ => True
  end.

Definition wf_heap (h : list node) : Prop := Forall wf_node h.



(** The size of the first buffer of [encode]. *)
Definition initial_size (opts : option encode_opts) : nat :=
  match opts with
  | Some o => if (size o =? 0)%nat then 1024%nat else size o
  | None => 1024%nat
  end.

(** ** Schemas and heaps used as examples *)

Definition primitive_nodes : list node := map NPrimitive PRIMITIVES.

(** [["null", "string"]] *)
Definition null_or_string : value := VArr [VStr "null"; VStr "string"].

Definition null_or_string_heap : list node :=
  primitive_nodes
  ++ [NWrappedUnion [0; 7]%nat (<["string" := 1%nat]> (<["null" := 0%nat]> ∅))
        [None; Some "string"]].

(** [["int", "string"]], parsed with [unwrapUnions]. *)
Definition int_or_string : value := VArr [VStr "int"; VStr "string"].

Definition int_or_string_heap : list node :=
  primitive_nodes
  ++ [NUnwrappedUnion [2; 7]%nat (<["string" := 1%nat]> (<["int" := 0%nat]> ∅))].

(** [{type: "enum", name: "E", symbols: ["A", "B", "C"]}] *)
Definition enum_E : value :=
  VObj [("type", VStr "enum"); ("name", VStr "E");
        ("symbols", VArr [VStr "A"; VStr "B"; VStr "C"])].

Definition enum_E_heap : list node :=
  primitive_nodes
  ++ [NEnum "E" VUndefined ["A"; "B"; "C"]
        (<["C" := 2%nat]> (<["B" := 1%nat]> (<["A" := 0%nat]> ∅)))].

(** [{type: "record", name: "R", fields: [{name: "a", type: "int",
    default: 5}]}] *)
Definition record_R : value :=
  VObj [("type", VStr "record"); ("name", VStr "R");
        ("fields", VArr [VObj [("name", VStr "a"); ("type", VStr "int");
                               ("default", VNum 5)]])].

Definition record_R_heap : list node :=
  primitive_nodes ++ [NRecord "R" VUndefined [Field "a" VUndefined 2 (VNum 5) true] true].

(** The [opts] left by a parse that started from [new_opts ns unwrap] and
    declared no named type. *)
Definition plain_state (h : list node) (unwrap : bool) : state :=
  {| heap := h; registry := registry (createRegistry (new_opts "" false));
     namespace := ""; unwrapUnions := unwrap |}.

(** [{type: "record", name: "a.b.R", namespace: "x", fields: []}], parsed
    with the inherited namespace ["y"]. *)
Definition record_dotted : value :=
  VObj [("type", VStr "record"); ("name", VStr "a.b.R");
        ("namespace", VStr "x"); ("fields", VArr [])].

Definition record_dotted_state : state :=
  set_namespace "x"
    (register "a.b.R" 8
       (plain_state (primitive_nodes ++ [NRecord "a.b.R" VUndefined [] true]) false)).

(** [{type: "record", name: "U", fields: [{name: "u", type: ["null",
    "string"], default: "a"}]}]: the default is a string, valid for the
    second branch only. *)
Definition field_u : value :=
  VObj [("name", VStr "u"); ("type", null_or_string); ("default", VStr "a")].

Definition record_U : value :=
  VObj [("type", VStr "record"); ("name", VStr "U"); ("fields", VArr [field_u])].

Definition null_or_string_node : node :=
  NWrappedUnion [0; 7]%nat (<["string" := 1%nat]> (<["null" := 0%nat]> ∅))
    [None; Some "string"].

Definition record_U_fields_state : state :=
  register "U" 8 (plain_state (primitive_nodes ++ [NRecord "U" VUndefined [] false]) false).

Definition record_U_union_state : state :=
  register "U" 8
    (plain_state (primitive_nodes ++ [NRecord "U" VUndefined [] false;
                                      null_or_string_node]) false).


Definition record_Pair_heap : list node :=
  primitive_nodes
  ++ [NRecord "Pair" VUndefined
        [Field "a" VUndefined 2 VUndefined true;
         Field "b" VUndefined 7 VUndefined true] true].

(** [{type: "enum", name: "E", namespace: "x", symbols: ["A"]}] *)
Definition enum_x_E : value :=
  VObj [("type", VStr "enum"); ("name", VStr "E"); ("namespace", VStr "x");
        ("symbols", VArr [VStr "A"])].

Definition enum_x_E_state : state :=
  set_namespace "x"
    (register "x.E" 8
       (plain_state (primitive_nodes
                     ++ [NEnum "x.E" VUndefined ["A"] (<["A" := 0%nat]> ∅)]) false)).

(** [{type: "enum", name: "D", symbols: ["A", "B", "A"]}] *)
Definition enum_D : value :=
  VObj [("type", VStr "enum"); ("name", VStr "D");
        ("symbols", VArr [VStr "A"; VStr "B"; VStr "A"])].

Definition enum_D_state : state :=
  register "D" 8
    (plain_state
       (primitive_nodes
        ++ [NEnum "D" VUndefined ["A"; "B"; "A"]
              (<["A" := 2%nat]> (<["B" := 1%nat]> (<["A" := 0%nat]> ∅)))])
       false).

(** A value that [JSON.stringify] and the evaluation of its output give
    back: no [undefined], no function and no buffer in it, and no key
    that the object literal would take for its prototype. *)
Fixpoint json_stable (v : value) : bool :=
  match v with
  | VNull | VBool _ | VNum _ | VStr _ => true
  | VArr xs => forallb json_stable xs
  | VObj props =>
      forallb (fun p => let '(k, x) := p in
                        negb (String.eqb k "__proto__") && json_stable x) props
  | _ => false
  end.

(** [{type: "fixed", name: "F", size: 4}] *)
Definition fixed_F : value :=
  VObj [("type", VStr "fixed"); ("name", VStr "F"); ("size", VNum 4)].

(** [{type: "enum", name: "int", symbols: ["A"]}] *)
Definition enum_int : value :=
  VObj [("type", VStr "enum"); ("name", VStr "int"); ("symbols", VArr [VStr "A"])].

Definition enum_int_state : state :=
  register "int" 8
    (plain_state (primitive_nodes
                  ++ [NEnum "int" VUndefined ["A"] (<["A" := 0%nat]> ∅)]) false).

(** [{type: "record", name: "M", fields: [{name: "m", type: {type: "map",
    values: "int"}, default: null}]}] *)
Definition record_M : value :=
  VObj [("type", VStr "record"); ("name", VStr "M");
        ("fields",
         VArr [VObj [("name", VStr "m");
                     ("type", VObj [("type", VStr "map"); ("values", VStr "int")]);
                     ("default", VNull)]])].

(** [{type: "record", name: "R", namespace: "x", fields: [{name: "a",
    type: "int"}]}] *)
Definition record_x_R : value :=
  VObj [("type", VStr "record"); ("name", VStr "R"); ("namespace", VStr "x");
        ("fields", VArr [VObj [("name", VStr "a"); ("type", VStr "int")]])].

Definition record_x_R_state : state :=
  set_namespace "x"
    (register "x.R" 8
       (plain_state
          (primitive_nodes
           ++ [NRecord "x.R" VUndefined [Field "a" VUndefined 2 VUndefined true] true])
          false)).

(** [{type: "record", name: "R", fields: [{name: "e", type: {type: "enum",
    name: "E", namespace: "x", symbols: ["A"]}}]}] *)
Definition record_N : value :=
  VObj [("type", VStr "record"); ("name", VStr "R");
        ("fields",
         VArr [VObj [("name", VStr "e");
                     ("type", VObj [("type", VStr "enum"); ("name", VStr "E");
                                    ("namespace", VStr "x");
                                    ("symbols", VArr [VStr "A"])])]])].

Definition record_N_state : state :=
  set_namespace "x"
    (register "x.E" 9
       (register "R" 8
          (plain_state
             (primitive_nodes
              ++ [NRecord "R" VUndefined [Field "e" VUndefined 9 VUndefined true] true;
                  NEnum "x.E" VUndefined ["A"] (<["A" := 0%nat]> ∅)])
             false))).

(** [{type: "record", name: "a.R", fields: [{name: "e", type: {type:
    "enum", name: "a.R", symbols: ["A"]}}]}] *)
Definition record_shadow : value :=
  VObj [("type", VStr "record"); ("name", VStr "a.R");
        ("fields",
         VArr [VObj [("name", VStr "e");
                     ("type", VObj [("type", VStr "enum"); ("name", VStr "a.R");
                                    ("symbols", VArr [VStr "A"])])]])].

Definition record_shadow_state : state :=
  register "a.R" 9
    (register "a.R" 8
       (plain_state
          (primitive_nodes
           ++ [NRecord "a.R" VUndefined [Field "e" VUndefined 9 VUndefined true] true;
               NEnum "a.R" VUndefined ["A"] (<["A" := 0%nat]> ∅)])
          false)).

(** * Properties *)

(** ** Outcomes of the loops *)

Lemma bind_Ok {A B} (r : result A) (k : A -> result B) (b : B) :
  r ≫= k = Ok b -> exists a, r = Ok a /\ k a = Ok b.
Proof. destruct r; simpl; intros; try discriminate; eauto. Qed.



(** ** The overflow test of [encode] *)

(** [!tap.isValid] is false whatever the cursor: the branch that resizes
    the buffer is never taken. *)
Lemma not_tap_isValid : negb (truthy tap_isValid) = false.
Proof. reflexivity. Qed.

(** C1, as the code has it: on the type ["int"] the value [64] is valid and
    takes two bytes, [80 01].  With [opts.size = 1] the write runs past the
    buffer (position 2, length 1), no second buffer is made, and [encode]
    returns the one byte that fitted; with the default size it returns both
    bytes. *)
Theorem encode_overflow_not_resized :
  let st := createRegistry (new_opts "" false) in
  parse 1 (VStr "int") (new_opts "" false) = Ok (2%nat, st)
  /\ isValid 1 (heap st) 2 (VNum 64) = Ok true
  /\ _write 1 (heap st) 2 (VNum 64) (Tap [x00] 0) = Ok (Tap [x80] 2)
  /\ Tap.isValid (Tap [x80] 2) = false
  /\ encode 1 (heap st) 2 (VNum 64) (Some (EncodeOpts 1 false)) = Ok [x80]
  /\ encode 1 (heap st) 2 (VNum 64) None = Ok [x80; x01].
Proof. vm_compute. repeat split; reflexivity. Qed.

(** ** Records and [null] *)

(** C9: the checker of a record lets [null] through its [typeof] guard;
    with no field it returns [true], with a field it throws a [TypeError]
    at the first property access.  It never returns [false]. *)
Theorem record_check_null (fuel : nat) (h : list node) (l : loc)
  (name : string) (doc : value) (fields : list field) :
  h !! l = Some (NRecord name doc fields true) ->
  isValid (S fuel) h l VNull
  = match fields with
    | [] => Ok true
    | _ :: _ => Throw (TypeError "Cannot read property of undefined or null")
    end
  /\ isValid (S fuel) h l VNull <> Ok false.
Proof.
  intros Hl. unfold isValid. simpl. rewrite Hl. simpl.
  destruct fields; split; simpl; congruence.
Qed.

Lemma record_check_null_witness :
  parse 2 record_R (new_opts "" false)
  = Ok (8%nat, register "R" 8 (plain_state record_R_heap false))
  /\ isValid 1 record_R_heap 8 VNull
     = Throw (TypeError "Cannot read property of undefined or null")
  /\ isValid 1 record_R_heap 8 VNull <> Ok false.
Proof.
  split; [vm_compute; reflexivity|].
  exact (record_check_null 0 record_R_heap 8 "R" VUndefined
           [Field "a" VUndefined 2 (VNum 5) true] eq_refl).
Defined.

(** ** Wrapped unions *)

Lemma table_defined_false table k :
  table_defined table k = false -> table !! k = None /\ inherited k = false.
Proof.
  unfold table_defined. intros H. apply orb_false_elim in H as [H1 H2].
  split; [|done]. apply bool_decide_eq_false in H1.
  destruct (table !! k); [|done]. destruct H1. eauto.
Qed.

Lemma table_defined_own table k i :
  table !! k = Some i -> table_defined table k = true.
Proof.
  intros H. unfold table_defined. rewrite bool_decide_eq_true_2 by eauto. done.
Qed.

Lemma inherited_proto k : inherited k = false -> k <> "__proto__".
Proof. by intros H ->. Qed.

Lemma table_set_insert k i table :
  k <> "__proto__" -> table_set k i table = <[k := i]> table.
Proof. intros H. unfold table_set. by destruct (String.eqb_spec k "__proto__"). Qed.

Lemma union_indices_cons h i0 t0 types idx0 idx :
  union_indices h i0 (t0 :: types) idx0 = Ok idx ->
  exists n0, h !! t0 = Some n0
             /\ idx0 !! key_of_name (branch_name n0) = None
             /\ inherited (key_of_name (branch_name n0)) = false
             /\ union_indices h (S i0) types
                  (<[key_of_name (branch_name n0) := i0]> idx0) = Ok idx.
Proof.
  simpl. intros Hu. destruct (h !! t0) as [n0|]; [|discriminate].
  destruct (table_defined idx0 _) eqn:Hdef; [discriminate|].
  apply table_defined_false in Hdef as [Hfresh Hinh].
  rewrite table_set_insert in Hu by by apply inherited_proto. eauto.
Qed.

(** What the loop over the branches leaves in [indices]: each branch under
    its name, and no two branches under one name. *)
Lemma union_indices_spec h types :
  forall i0 idx0 idx,
    union_indices h i0 types idx0 = Ok idx ->
    forall k i,
      idx !! k = Some i <->
      idx0 !! k = Some i
      \/ exists j t n, i = (i0 + j)%nat /\ types !! j = Some t
                       /\ h !! t = Some n /\ key_of_name (branch_name n) = k.
Proof.
  induction types as [|t0 types IH]; intros i0 idx0 idx Hu k i.
  - simpl in Hu. injection Hu as <-. split; [by left|].
    intros [?|(j & t & n & _ & Hj & _)]; [done|discriminate].
  - apply union_indices_cons in Hu as (n0 & Hn0 & Hfresh & _ & Hu).
    rewrite (IH _ _ _ Hu k i). rewrite lookup_insert. split.
    + intros [Hin|(j & t & n & -> & Hj & Hn & Hk)].
      * case_decide as Hd.
        -- injection Hin as <-. right. exists 0%nat, t0, n0.
           rewrite Nat.add_0_r. done.
        -- by left.
      * right. exists (S j), t, n. split; [lia|done].
    + intros [Hin|(j & t & n & -> & Hj & Hn & Hk)].
      * left. case_decide as Hd; [congruence|done].
      * destruct j as [|j]; simpl in Hj.
        -- injection Hj as ->. left. rewrite Hn0 in Hn. injection Hn as <-.
           rewrite decide_True by done. f_equal. lia.
        -- right. exists j, t, n. split; [lia|done].
Qed.

Lemma union_indices_resolved h types :
  forall i0 idx0 idx,
    union_indices h i0 types idx0 = Ok idx ->
    forall t, t ∈ types -> is_Some (h !! t).
Proof.
  induction types as [|t0 types IH]; intros i0 idx0 idx Hu t Ht.
  - by apply elem_of_nil in Ht.
  - apply union_indices_cons in Hu as (n0 & Hn0 & _ & _ & Hu).
    apply elem_of_cons in Ht as [->|Ht]; [by rewrite Hn0|by eapply IH].
Qed.

Lemma alloc_lookup_new n st : heap (alloc n st).2 !! (alloc n st).1 = Some n.
Proof. simpl. by rewrite lookup_app_r, Nat.sub_diag. Qed.

Lemma alloc_lookup_old n st l x :
  heap st !! l = Some x -> heap (alloc n st).2 !! l = Some x.
Proof. intros H. simpl. by apply lookup_app_l_Some. Qed.

Lemma Object_keys_object v :
  not_object v = false -> is_null v = false ->
  exists keys, Object_keys v = Ok keys.
Proof. destruct v; simpl; try discriminate; eauto. Qed.

(** C3, as the code has it: null is valid exactly when a branch is called
    ['null']; any other value is valid exactly when it is an object whose
    first own key names a branch and whose property under that key is valid
    for that branch.  The number of keys is not looked at. *)
Theorem wrapped_union_check
  (parse : value -> state -> result (loc * state))
  (schema : value) (st st' : state) (l : loc) :
  WrappedUnionType parse schema st = Ok (l, st') ->
  exists types indices constructors,
    heap st' !! l = Some (NWrappedUnion types indices constructors)
    /\ forall (fuel : nat) (v : value),
        isValid (S fuel) (heap st') l v = Ok true <->
        (v = VNull /\ exists t, names_branch (heap st') types "null" t)
        \/ (not_object v = false /\ v <> VNull
            /\ exists t x, names_branch (heap st') types (first_key v) t
                           /\ get_prop v (first_key v) = Ok x
                           /\ isValid fuel (heap st') t x = Ok true).
Proof.
  unfold WrappedUnionType. intros H.
  apply bind_Ok in H as ([types st1] & Hu & H).
  apply bind_Ok in H as (indices & Hidx & H).
  apply bind_Ok in H as (constructors & Hc & H).
  injection H as <- <-.
  exists types, indices, constructors.
  pose proof (union_indices_spec _ _ _ _ _ Hidx) as Hspec.
  pose proof (union_indices_resolved _ _ _ _ _ Hidx) as Hres.
  set (node := NWrappedUnion types indices constructors).
  assert (Hnames : forall k t,
             names_branch (heap (alloc node st1).2) types k t
             <-> exists i, indices !! k = Some i /\ types !! i = Some t).
  { intros k t. split.
    - intros (i & n & Hi & Hn & Hk). exists i. split; [|done].
      apply Hspec. right. exists i, t, n. repeat split; try done.
      destruct (Hres t) as [n' Hn']; [by eapply list_elem_of_lookup_2|].
      rewrite (alloc_lookup_old _ _ _ _ Hn') in Hn. congruence.
    - intros (i & Hi & Ht).
      apply Hspec in Hi as [Hi|(j & t' & n & -> & Hj & Hn & Hk)]; [done|].
      simpl in Ht. rewrite Ht in Hj. injection Hj as <-.
      exists j, n. repeat split; try done. by apply alloc_lookup_old. }
  split; [apply alloc_lookup_new|].
  intros fuel v. unfold isValid at 1. simpl _check.
  replace (length (heap st1)) with (alloc node st1).1 by done.
  rewrite alloc_lookup_new. fold node. simpl.
  destruct (not_object v) eqn:Hobj.
  { split; [discriminate|]. intros [[-> _]|(? & _)]; discriminate. }
  destruct (is_null v) eqn:Hnull.
  { destruct v; try discriminate. split.
    - intros Hv. left. split; [done|].
      injection Hv as Hv. apply bool_decide_eq_true in Hv as [i Hi].
      destruct (proj1 (Hspec _ _) Hi) as [?|(j & t & n & -> & Hj & Hn & Hk)]; [done|].
      exists t. apply Hnames. eauto.
    - intros [[_ [t Ht]]|(_ & Hne & _)]; [|done].
      apply Hnames in Ht as (i & Hi & _). f_equal.
      apply bool_decide_eq_true. eauto. }
  destruct (Object_keys_object v Hobj Hnull) as [keys Hkeys].
  unfold first_key. rewrite Hkeys. simpl.
  replace (match keys with [] => "undefined" | k :: _ => k end)
    with (default "undefined" (head keys)) by by destruct keys.
  set (k := default "undefined" (head keys)).
  split.
  - intros Hv. right. split; [done|]. split; [by intros ->|].
    destruct (indices !! k) as [i|] eqn:Hi; [|by destruct (inherited k)].
    destruct (types !! i) as [t|] eqn:Ht; [|discriminate].
    apply bind_Ok in Hv as (x & Hx & Hv).
    exists t, x. split; [apply Hnames; eauto|done].
  - intros [[-> _]|(_ & _ & t & x & Ht & Hx & Hv)]; [discriminate|].
    apply Hnames in Ht as (i & Hi & Ht). rewrite Hi, Ht, Hx. done.
Qed.

Lemma wrapped_union_check_witness :
  exists types indices constructors,
    null_or_string_heap !! 8%nat = Some (NWrappedUnion types indices constructors)
    /\ forall (fuel : nat) (v : value),
        isValid (S fuel) null_or_string_heap 8 v = Ok true <->
        (v = VNull /\ exists t, names_branch null_or_string_heap types "null" t)
        \/ (not_object v = false /\ v <> VNull
            /\ exists t x, names_branch null_or_string_heap types (first_key v) t
                           /\ get_prop v (first_key v) = Ok x
                           /\ isValid fuel null_or_string_heap t x = Ok true).
Proof.
  apply (wrapped_union_check (parse 1) null_or_string
           (createRegistry (new_opts "" false))
           (plain_state null_or_string_heap false) 8).
  vm_compute. reflexivity.
Defined.

(** C3, as stated, fails: for [["null", "string"]] a mapping with two keys
    is valid, its first key naming the branch [string]. *)
Lemma wrapped_union_accepts_two_keys :
  parse 2 null_or_string (new_opts "" false)
  = Ok (8%nat, plain_state null_or_string_heap false)
  /\ isValid 2 null_or_string_heap 8
       (VObj [("string", VStr "a"); ("other", VNum 1)]) = Ok true
  /\ ~ (exists k x, VObj [("string", VStr "a"); ("other", VNum 1)] = VObj [(k, x)]).
Proof.
  split; [vm_compute; reflexivity|].
  split; [vm_compute; reflexivity|].
  intros (k & x & H). discriminate.
Qed.

(** ** Enums *)

Lemma at_index_None {A} (xs : list A) (i : Z) :
  ~ (0 <= i < Z.of_nat (length xs)) -> at_index xs i = None.
Proof.
  intros H. unfold at_index. destruct (Z.ltb_spec i 0); [done|].
  apply lookup_ge_None. lia.
Qed.

(** C4, as the code has it: an index outside the symbols is no failure.
    [_read] returns [symbols[index]], which is [undefined] there, and
    [decode] throws only when the cursor ran past the end of the buffer. *)
Theorem enum_decode_unknown_index (fuel : nat) (h : list node) (l : loc)
  (name : string) (doc : value) (symbols : list string)
  (indices : gmap string nat) (buf : list byte) (i : Z) (t1 : tap) :
  h !! l = Some (NEnum name doc symbols indices) ->
  Tap.readLong (Tap buf 0) = (i, t1) ->
  ~ (0 <= i < Z.of_nat (length symbols)) ->
  decode (S fuel) h l buf
  = if Tap.isValid t1 then Ok VUndefined
    else Throw (Error "truncated buffer" []).
Proof.
  intros Hl Hread Hi. unfold decode. simpl _read. rewrite Hl, Hread.
  rewrite (at_index_None _ _ Hi). simpl. by destruct (Tap.isValid t1).
Qed.

Lemma enum_decode_unknown_index_witness :
  decode 1 enum_E_heap 8 [x06] = Ok VUndefined.
Proof.
  apply (enum_decode_unknown_index 0 enum_E_heap 8 "E" VUndefined ["A"; "B"; "C"]
           (<["C" := 2%nat]> (<["B" := 1%nat]> (<["A" := 0%nat]> ∅)))
           [x06] 3 (Tap [x06] 1)).
  - reflexivity.
  - reflexivity.
  - simpl. lia.
Defined.

(** C4, as stated, fails: for the symbols [A], [B], [C] the byte [06], the
    index 3, decodes to [undefined] and nothing is thrown. *)
Lemma enum_decode_index_3_returns :
  parse 2 enum_E (new_opts "" false)
  = Ok (8%nat, register "E" 8 (plain_state enum_E_heap false))
  /\ Tap.readLong (Tap [x06] 0) = (3, Tap [x06] 1)
  /\ decode 1 enum_E_heap 8 [x06] = Ok VUndefined.
Proof. vm_compute. repeat split; reflexivity. Qed.

(** ** Duplicate branches *)

Lemma createRegistry_registry st : is_Some (registry (createRegistry st)).
Proof. unfold createRegistry. simpl. eauto. Qed.

Lemma getOpts_registry schema st st1 :
  getOpts schema st = Ok st1 -> is_Some (registry st1).
Proof.
  unfold getOpts. intros H. apply bind_Ok in H as (ns & _ & H).
  injection H as <-. simpl.
  destruct (registry st) eqn:Hr; [by rewrite Hr|apply createRegistry_registry].
Qed.

(** A second [getOpts] on the same array does nothing. *)
Lemma getOpts_array_again branches st st1 :
  getOpts (VArr branches) st = Ok st1 -> getOpts (VArr branches) st1 = Ok st1.
Proof.
  intros H. destruct (getOpts_registry _ _ _ H) as [r Hr].
  unfold getOpts. rewrite Hr. simpl. by destruct st1.
Qed.

Lemma union_indices_duplicate h types names :
  Forall2 (fun t name => exists n, h !! t = Some n
                                   /\ key_of_name (branch_name n) = name)
          types names ->
  forall i0 idx0,
    ~ NoDup names \/ (exists k, k ∈ names /\ is_Some (idx0 !! k)) ->
    exists name,
      union_indices h i0 types idx0
      = Throw (AvscError "duplicate union name: %j" [VStr name]).
Proof.
  induction 1 as [|t name types names (n & Hn & Hname) _ IH]; intros i0 idx0 Hdup.
  - destruct Hdup as [Hdup|(k & Hk & _)]; [destruct Hdup; constructor|].
    by apply elem_of_nil in Hk.
  - simpl. rewrite Hn, Hname.
    destruct (table_defined idx0 name) eqn:Hdef; [eauto|].
    apply table_defined_false in Hdef as [Hfresh Hinh].
    rewrite table_set_insert by by apply inherited_proto.
    apply IH. destruct (decide (name ∈ names)) as [Hin|Hnotin].
    { right. exists name. split; [done|]. rewrite lookup_insert_eq. eauto. }
    destruct Hdup as [Hdup|(k & Hk & Hsome)].
    + left. intros Hnd. apply Hdup. by constructor.
    + right. exists k. apply elem_of_cons in Hk as [->|Hk].
      * rewrite Hfresh in Hsome. by destruct Hsome.
      * split; [done|]. rewrite lookup_insert_ne; [done|]. by intros ->.
Qed.

Lemma parse_array fuel branches st :
  parse (S fuel) (VArr branches) st
  = (st1 ← getOpts (VArr branches) st;
     if unwrapUnions st1 then UnwrappedUnionType (parse fuel) (VArr branches) st1
     else WrappedUnionType (parse fuel) (VArr branches) st1).
Proof. reflexivity. Qed.

(** C5: when the branches of a union schema parse and two of them have
    the same name, [parse] of the union throws the [AvscError]
    ['duplicate union name'], with wrapped and with unwrapped unions. *)
Theorem union_duplicate_branch (fuel : nat) (branches : list value)
  (st st1 st2 : state) (types : list loc) (names : list string) :
  getOpts (VArr branches) st = Ok st1 ->
  parse_each (parse fuel) branches st1 = Ok (types, st2) ->
  Forall2 (fun t name => exists n, heap st2 !! t = Some n
                                   /\ key_of_name (branch_name n) = name)
          types names ->
  ~ NoDup names ->
  exists name,
    parse (S fuel) (VArr branches) st
    = Throw (AvscError "duplicate union name: %j" [VStr name]).
Proof.
  intros Hopts Hparse Hnames Hdup.
  destruct (union_indices_duplicate _ _ _ Hnames 0%nat ∅ (or_introl Hdup))
    as [name Hthrow].
  exists name. rewrite parse_array, Hopts. simpl.
  assert (Hunion : UnionType (parse fuel) (VArr branches) st1 = Ok (types, st2)).
  { unfold UnionType. destruct branches as [|b branches].
    - simpl in Hparse. injection Hparse as <- <-.
      inversion Hnames; subst. destruct Hdup. constructor.
    - rewrite (getOpts_array_again _ _ _ Hopts). done. }
  unfold UnwrappedUnionType, WrappedUnionType. rewrite Hunion. simpl.
  rewrite Hthrow. by destruct (unwrapUnions st1).
Qed.

Lemma union_duplicate_branch_witness :
  exists name,
    parse 2 (VArr [VStr "int"; VStr "int"]) (new_opts "" false)
    = Throw (AvscError "duplicate union name: %j" [VStr name]).
Proof.
  apply (union_duplicate_branch 1 [VStr "int"; VStr "int"] (new_opts "" false)
           (plain_state primitive_nodes false) (plain_state primitive_nodes false)
           [2; 2]%nat ["int"; "int"]).
  - vm_compute. reflexivity.
  - vm_compute. reflexivity.
  - repeat constructor; exists (NPrimitive "int"); split; reflexivity.
  - intros H. inversion H as [|x l Hnotin]; subst. apply Hnotin. by left.
Defined.

(** ** What a parse leaves of the state it started from *)

Ltac split_extends :=
  unfold extends; split; [|split; [|split]].

Lemma extends_refl st : extends st st.
Proof.
  split_extends; try done.
  - intros k l Hl. eauto.
  - intros k l Hl. by left.
Qed.

Lemma extends_trans st1 st2 st3 :
  extends st1 st2 -> extends st2 st3 -> extends st1 st3.
Proof.
  intros (Hp1 & Hu1 & Hold1 & Hnew1) (Hp2 & Hu2 & Hold2 & Hnew2).
  pose proof (prefix_length _ _ Hp1) as Hlen1.
  split_extends.
  - by etrans.
  - congruence.
  - intros k l Hl. destruct (Hold1 k l Hl) as (l' & Hl' & Hor).
    destruct (Hold2 k l' Hl') as (l'' & Hl'' & Hor').
    exists l''. split; [done|]. destruct Hor' as [->|?]; [done|right; lia].
  - intros k l Hl. destruct (Hnew2 k l Hl) as [Hl2|(Hge & n & Hn & Hk)].
    + destruct (Hnew1 k l Hl2) as [?|(Hge & n & Hn & Hk)]; [by left|].
      right. split; [done|]. exists n. split; [|done].
      by eapply prefix_lookup_Some.
    + right. split; [lia|eauto].
Qed.

Lemma alloc_extends n st : extends st (alloc n st).2.
Proof.
  split_extends; simpl; try done.
  - by apply prefix_app_r.
  - intros k l Hl. eauto.
  - intros k l Hl. by left.
Qed.

Lemma register_extends st0 st name l n :
  extends st0 st -> (length (heap st0) <= l)%nat ->
  heap st !! l = Some n -> node_key n = name ->
  extends st0 (register name l st).
Proof.
  intros (Hp & Hu & Hold & Hnew) Hl Hn Hname.
  split_extends; unfold the_registry; simpl; try done.
  - intros k l0 Hl0. rewrite lookup_insert. case_decide; [eauto|by apply Hold].
  - intros k l0. rewrite lookup_insert. case_decide as Hk.
    + intros [= <-]. subst k. right. eauto.
    + apply Hnew.
Qed.

Lemma set_node_extends st0 st l n0 n :
  extends st0 st -> (length (heap st0) <= l)%nat ->
  heap st !! l = Some n0 -> node_key n = node_key n0 ->
  extends st0 (set_node l n st).
Proof.
  intros (Hp & Hu & Hold & Hnew) Hl Hn0 Hkey.
  split_extends; unfold the_registry; simpl; try done.
  - destruct Hp as [k Hk]. rewrite Hk.
    rewrite insert_app_r_alt by done. by apply prefix_app_r.
  - intros k l0 Hl0. destruct (Hnew k l0 Hl0) as [?|(Hge & n1 & Hn1 & Hk)]; [by left|].
    right. split; [done|]. destruct (decide (l0 = l)) as [->|Hne].
    + exists n. rewrite list_lookup_insert_eq by by eapply lookup_lt_Some.
      split; [done|]. congruence.
    + exists n1. by rewrite list_lookup_insert_ne.
Qed.

Lemma createRegistry_extends st : extends st (createRegistry st).
Proof.
  unfold createRegistry. generalize PRIMITIVES. intros names. revert st.
  induction names as [|name names IH]; intros st; [apply extends_refl|].
  simpl. eapply extends_trans; [|apply IH].
  eapply register_extends with (n := NPrimitive name);
    [apply alloc_extends|simpl; lia| |reflexivity].
  simpl. by rewrite lookup_app_r, Nat.sub_diag.
Qed.

Lemma getOpts_extends schema st st1 :
  getOpts schema st = Ok st1 -> extends st st1.
Proof.
  unfold getOpts. intros H. apply bind_Ok in H as (ns & _ & H).
  injection H as <-.
  assert (Hset : forall ns' st', extends st st' ->
                                  extends st (set_namespace ns' st')) by done.
  apply Hset. destruct (registry st); [apply extends_refl|].
  apply createRegistry_extends.
Qed.

Lemma parse_each_extends {A B} (f : A -> state -> result (B * state)) xs :
  (forall x st y st', f x st = Ok (y, st') -> extends st st') ->
  forall st ys st', parse_each f xs st = Ok (ys, st') -> extends st st'.
Proof.
  intros Hf. induction xs as [|x xs IH]; intros st ys st' H; simpl in H.
  - injection H as <- <-. apply extends_refl.
  - apply bind_Ok in H as ([y st1] & Hy & H).
    apply bind_Ok in H as ([ys' st2] & Hys & H). injection H as <- <-.
    eapply extends_trans; [by eapply Hf|by eapply IH].
Qed.

Section ParseExtends.

Variable parse : value -> state -> result (loc * state).
Variable fuel : nat.
Hypothesis parse_extends :
  forall schema st l st', parse schema st = Ok (l, st') -> extends st st'.

Lemma UnionType_extends schema st types st' :
  UnionType parse schema st = Ok (types, st') -> extends st st'.
Proof.
  unfold UnionType. destruct schema as [| | | | | |[|b branches]| |];
    try discriminate.
  intros H. apply bind_Ok in H as (st1 & Hopts & H).
  eapply extends_trans; [by eapply getOpts_extends|].
  by eapply parse_each_extends.
Qed.

Lemma WrappedUnionType_extends schema st l st' :
  WrappedUnionType parse schema st = Ok (l, st') -> extends st st'.
Proof.
  unfold WrappedUnionType. intros H.
  apply bind_Ok in H as ([types st1] & Hu & H).
  apply bind_Ok in H as (indices & _ & H).
  apply bind_Ok in H as (constructors & _ & H). injection H as <- <-.
  eapply extends_trans; [by eapply UnionType_extends|apply alloc_extends].
Qed.

Lemma UnwrappedUnionType_extends schema st l st' :
  UnwrappedUnionType parse schema st = Ok (l, st') -> extends st st'.
Proof.
  unfold UnwrappedUnionType. intros H.
  apply bind_Ok in H as ([types st1] & Hu & H).
  apply bind_Ok in H as (indices & _ & H). injection H as <- <-.
  eapply extends_trans; [by eapply UnionType_extends|apply alloc_extends].
Qed.

Lemma MapType_extends schema st l st' :
  MapType parse schema st = Ok (l, st') -> extends st st'.
Proof.
  unfold MapType. intros H. apply bind_Ok in H as (values & _ & H).
  destruct (negb (truthy values)); [discriminate|].
  apply bind_Ok in H as (st1 & Hopts & H).
  apply bind_Ok in H as ([t st2] & Hp & H). injection H as <- <-.
  eapply extends_trans; [by eapply getOpts_extends|].
  eapply extends_trans; [by eapply parse_extends|apply alloc_extends].
Qed.

Lemma ArrayType_extends schema st l st' :
  ArrayType parse schema st = Ok (l, st') -> extends st st'.
Proof.
  unfold ArrayType. intros H. apply bind_Ok in H as (items & _ & H).
  destruct (negb (truthy items)); [discriminate|].
  apply bind_Ok in H as (st1 & Hopts & H).
  apply bind_Ok in H as ([t st2] & Hp & H). injection H as <- <-.
  eapply extends_trans; [by eapply getOpts_extends|].
  eapply extends_trans; [by eapply parse_extends|apply alloc_extends].
Qed.

Lemma RecordType_field_extends self entry st f st' :
  RecordType_field parse fuel self entry st = Ok (f, st') -> extends st st'.
Proof.
  unfold RecordType_field. intros H.
  destruct (not_object entry); [discriminate|].
  apply bind_Ok in H as (name & _ & H).
  destruct name; try discriminate.
  apply bind_Ok in H as (ts & _ & H).
  apply bind_Ok in H as ([type st1] & Hp & H).
  apply bind_Ok in H as (n & _ & H).
  apply bind_Ok in H as (d & _ & H).
  apply bind_Ok in H as (doc & _ & H).
  assert (st' = st1) as ->; [|by eapply parse_extends].
  destruct (is_undefined d); [by injection H as <- <-|].
  apply bind_Ok in H as (d' & _ & H).
  apply bind_Ok in H as (first & _ & H).
  apply bind_Ok in H as (valid & _ & H).
  destruct (negb valid); [discriminate|]. by injection H as <- <-.
Qed.

End ParseExtends.

(** ** Named types and the registry *)

Lemma EnumType_spec schema st l st' :
  EnumType schema st = Ok (l, st') ->
  exists st1 q doc symbols indices,
    getOpts schema st = Ok st1
    /\ getQualifiedName schema (namespace st1) = Ok q
    /\ l = length (heap st1)
    /\ st' = register q l (alloc (NEnum q doc symbols indices) st1).2.
Proof.
  unfold EnumType. intros H. apply bind_Ok in H as (name & _ & H).
  destruct (String.eqb name ""); [discriminate|].
  apply bind_Ok in H as (symbols & _ & H).
  destruct symbols as [| | | | | |[|s symbols]| |]; try discriminate.
  apply bind_Ok in H as (st1 & Hopts & H).
  apply bind_Ok in H as ([ss indices] & _ & H).
  apply bind_Ok in H as (q & Hq & H).
  apply bind_Ok in H as (doc & _ & H).
  destruct (String.eqb q "__proto__"); [discriminate|].
  injection H as <- <-. by exists st1, q, doc, ss, indices.
Qed.

Lemma FixedType_spec schema st l st' :
  FixedType schema st = Ok (l, st') ->
  exists st1 q size,
    getOpts schema st = Ok st1
    /\ getQualifiedName schema (namespace st1) = Ok q
    /\ l = length (heap st1)
    /\ st' = register q l (alloc (NFixed q size) st1).2.
Proof.
  unfold FixedType. intros H. apply bind_Ok in H as (name & _ & H).
  destruct (String.eqb name ""); [discriminate|].
  apply bind_Ok in H as (size & _ & H).
  destruct size as [| | |n| | | | |];
    try (apply bind_Ok in H as (? & _ & H); discriminate).
  destruct (negb (n =? to_int32 n) || (n <? 1)); [discriminate|].
  apply bind_Ok in H as (st1 & Hopts & H).
  apply bind_Ok in H as (q & Hq & H).
  destruct (String.eqb q "__proto__"); [discriminate|].
  injection H as <- <-. by exists st1, q, n.
Qed.

Lemma RecordType_spec parse fuel schema st l st' :
  RecordType parse fuel schema st = Ok (l, st') ->
  exists st1 q doc entries fields stb,
    getOpts schema st = Ok st1
    /\ getQualifiedName schema (namespace st1) = Ok q
    /\ l = length (heap st1)
    /\ get_prop schema "fields" = Ok (VArr entries)
    /\ parse_each (RecordType_field parse fuel q) entries
         (register q l (alloc (NRecord q doc [] false) st1).2)
       = Ok (fields, stb)
    /\ st' = set_node l (NRecord q doc (map (bind_field (heap stb)) fields) true) stb.
Proof.
  unfold RecordType. intros H. apply bind_Ok in H as (name & _ & H).
  destruct (String.eqb name ""); [discriminate|].
  apply bind_Ok in H as (st1 & Hopts & H).
  apply bind_Ok in H as (q & Hq & H).
  apply bind_Ok in H as (doc & _ & H).
  destruct (String.eqb q "__proto__"); [discriminate|].
  apply bind_Ok in H as (entries & Hentries & H).
  destruct entries as [| | | | | |entries| |]; try discriminate.
  apply bind_Ok in H as ([fields stb] & Hfields & H).
  destruct (negb _); [discriminate|].
  destruct (existsb _ _); [discriminate|].
  injection H as <- <-. by exists st1, q, doc, entries, fields, stb.
Qed.

Lemma RecordType_extends parse fuel schema st l st' :
  (forall schema st l st', parse schema st = Ok (l, st') -> extends st st') ->
  RecordType parse fuel schema st = Ok (l, st') -> extends st st'.
Proof.
  intros Hparse H.
  apply RecordType_spec in H
    as (st1 & q & doc & entries & fields & stb & Hopts & Hq & -> & _ & Hf & ->).
  eapply extends_trans; [by eapply getOpts_extends|].
  set (n0 := NRecord q doc [] false) in *.
  assert (Hreg : extends st1 (register q (length (heap st1)) (alloc n0 st1).2)).
  { eapply register_extends with (n := n0);
      [apply alloc_extends|done|apply alloc_lookup_new|done]. }
  pose proof (parse_each_extends _ _
                (RecordType_field_extends parse fuel Hparse q) _ _ _ Hf) as Hext.
  eapply set_node_extends with (n0 := n0);
    [by eapply extends_trans|done| |done].
  destruct Hext as (Hp & _). eapply prefix_lookup_Some; [|done].
  apply alloc_lookup_new.
Qed.

Lemma parse_complex_extends parse fuel schema st l st' :
  (forall schema st l st', parse schema st = Ok (l, st') -> extends st st') ->
  parse_complex parse fuel schema st = Ok (l, st') -> extends st st'.
Proof.
  intros Hparse H. unfold parse_complex in H.
  apply bind_Ok in H as (type & Htype & H).
  destruct type as [| | | |type| | | |]; try discriminate.
  destruct (is_primitive type).
  { destruct (the_registry st !! type); [|discriminate].
    injection H as <- <-. apply extends_refl. }
  destruct (String.eqb type "array"); [by eapply ArrayType_extends|].
  destruct (String.eqb type "enum").
  { apply EnumType_spec in H as (st2 & q & doc & symbols & indices & Ho & _ & -> & ->).
    eapply extends_trans; [by eapply getOpts_extends|].
    eapply register_extends with (n := NEnum q doc symbols indices);
      [apply alloc_extends|done|apply alloc_lookup_new|done]. }
  destruct (String.eqb type "fixed").
  { apply FixedType_spec in H as (st2 & q & size & Ho & _ & -> & ->).
    eapply extends_trans; [by eapply getOpts_extends|].
    eapply register_extends with (n := NFixed q size);
      [apply alloc_extends|done|apply alloc_lookup_new|done]. }
  destruct (String.eqb type "map"); [by eapply MapType_extends|].
  destruct (String.eqb type "record"); [by eapply RecordType_extends|].
  discriminate.
Qed.

Lemma parse_extends fuel :
  forall schema st l st', parse fuel schema st = Ok (l, st') -> extends st st'.
Proof.
  induction fuel as [|fuel IH]; intros schema st l st' H; [discriminate|].
  simpl in H. apply bind_Ok in H as (st1 & Hopts & H).
  eapply extends_trans; [by eapply getOpts_extends|].
  destruct schema as [| | | |s| |branches|props|];
    try by eapply parse_complex_extends.
  - destruct (the_registry st1 !! _); [|by destruct (inherited _)].
    injection H as <- <-. apply extends_refl.
  - destruct (unwrapUnions st1);
      [by eapply UnwrappedUnionType_extends|by eapply WrappedUnionType_extends].
Qed.

(** A second [getOpts] on the same schema does nothing. *)
Lemma getOpts_again schema st st1 :
  getOpts schema st = Ok st1 -> getOpts schema st1 = Ok st1.
Proof.
  intros H. destruct (getOpts_registry _ _ _ H) as [r Hr].
  unfold getOpts in *. apply bind_Ok in H as (ns & Hns & H).
  rewrite Hr, Hns. simpl. injection H as <-. simpl. f_equal.
  unfold set_namespace. simpl. f_equal. by destruct (String.eqb ns "").
Qed.

Lemma getOpts_string s st :
  is_Some (registry st) -> getOpts (VStr s) st = Ok st.
Proof.
  intros [r Hr]. unfold getOpts. rewrite Hr. simpl. by destruct st.
Qed.

(** A declaration of a named type leaves the type object under its
    qualified name in the registry, unless a declaration nested in it took
    the same name after it. *)
Lemma named_type_registered fuel schema st l st' ty :
  parse fuel schema st = Ok (l, st') ->
  get_prop schema "type" = Ok (VStr ty) ->
  ty ∈ ["enum"; "fixed"; "record"] ->
  exists st1 q n l' n',
    getOpts schema st = Ok st1
    /\ getQualifiedName schema (namespace st1) = Ok q
    /\ heap st' !! l = Some n /\ type_name n = q /\ getTypeName n = Some ty
    /\ the_registry st' !! q = Some l'
    /\ heap st' !! l' = Some n' /\ node_key n' = q
    /\ (l <= l')%nat /\ (ty <> "record" -> l' = l).
Proof.
  intros H Hty Hin. destruct fuel as [|fuel]; [discriminate|].
  simpl in H. apply bind_Ok in H as (st1 & Hopts & H).
  pose proof (getOpts_again _ _ _ Hopts) as Hagain.
  assert (Hc : parse_complex (parse fuel) fuel schema st1 = Ok (l, st')).
  { destruct schema; try done; simpl in Hty; discriminate. }
  clear H. unfold parse_complex in Hc. rewrite Hty in Hc. simpl in Hc.
  exists st1.
  assert (Hreg : forall q n,
             the_registry (register q (length (heap st1)) (alloc n st1).2) !! q
             = Some (length (heap st1))).
  { intros q n. unfold the_registry. simpl. apply lookup_insert_eq. }
  apply elem_of_cons in Hin as [->|Hin].
  { simpl in Hc.
    apply EnumType_spec in Hc as (st2 & q & doc & symbols & indices & Ho & Hq & -> & ->).
    rewrite Hagain in Ho. injection Ho as <-.
    exists q, (NEnum q doc symbols indices), (length (heap st1)),
      (NEnum q doc symbols indices).
    repeat split; try done; apply alloc_lookup_new. }
  apply elem_of_cons in Hin as [->|Hin].
  { simpl in Hc.
    apply FixedType_spec in Hc as (st2 & q & size & Ho & Hq & -> & ->).
    rewrite Hagain in Ho. injection Ho as <-.
    exists q, (NFixed q size), (length (heap st1)), (NFixed q size).
    repeat split; try done; apply alloc_lookup_new. }
  apply elem_of_cons in Hin as [->|Hin]; [|by apply elem_of_nil in Hin].
  simpl in Hc.
  apply RecordType_spec in Hc
    as (st2 & q & doc & entries & fields & stb & Ho & Hq & -> & _ & Hf & ->).
  rewrite Hagain in Ho. injection Ho as <-.
  set (n0 := NRecord q doc [] false) in *.
  set (self := length (heap st1)) in *.
  set (n1 := NRecord q doc (map (bind_field (heap stb)) fields) true).
  pose proof (parse_each_extends _ _
                (RecordType_field_extends (parse fuel) fuel (parse_extends fuel) q)
                _ _ _ Hf) as (Hp & _ & Hold & Hnew).
  assert (Hself : heap stb !! self = Some n0).
  { eapply prefix_lookup_Some; [|done]. apply alloc_lookup_new. }
  assert (Hself' : heap (set_node self n1 stb) !! self = Some n1).
  { simpl. apply list_lookup_insert_eq. by eapply lookup_lt_Some. }
  destruct (Hold q self (Hreg q n0)) as (l' & Hl' & Hor).
  destruct (Hnew q l' Hl') as [Hsame|(Hge & n' & Hn' & Hkey)].
  - rewrite Hreg in Hsame. injection Hsame as <-.
    exists q, n1, self, n1. repeat split; try done.
  - simpl in Hge. rewrite length_app in Hge. simpl in Hge.
    exists q, n1, l', n'. repeat split; try done.
    + simpl. rewrite list_lookup_insert_ne; [done|]. unfold self. lia.
    + unfold self. lia.
Qed.

Lemma getQualifiedName_dotted schema name ns :
  get_prop schema "name" = Ok (VStr name) -> has_dot name = true ->
  getQualifiedName schema ns = Ok name.
Proof.
  intros Hname Hdot. unfold getQualifiedName, attr. rewrite Hname. simpl.
  rewrite Hdot. simpl. by rewrite andb_false_r.
Qed.

Lemma parse_string fuel s st :
  parse (S fuel) (VStr s) st
  = (st ← getOpts (VStr s) st;
     let s := if negb (String.eqb (namespace st) "") && negb (has_dot s)
                 && negb (is_primitive s)
              then namespace st +:+ "." +:+ s else s in
     match the_registry st !! s with
     | Some type => Ok (type, st)
     | None => if inherited s then Unmodelled
               else Throw (Error "missing name: " [VStr s])
     end).
Proof. reflexivity. Qed.

(** A reference to a name that needs no namespace resolves to the entry of
    the registry and changes nothing. *)
Lemma parse_reference fuel q l st :
  is_Some (registry st) ->
  the_registry st !! q = Some l ->
  namespace st = "" \/ has_dot q = true ->
  parse (S fuel) (VStr q) st = Ok (l, st).
Proof.
  intros Hr Hl Hns. rewrite parse_string, (getOpts_string _ _ Hr). simpl.
  replace (negb (String.eqb (namespace st) "") && negb (has_dot q)
           && negb (is_primitive q)) with false.
  - by rewrite Hl.
  - destruct Hns as [->| ->]; [done|]. by rewrite andb_false_r.
Qed.

Lemma parse_lookup fuel s l st :
  is_Some (registry st) ->
  the_registry st
  !! (if negb (String.eqb (namespace st) "") && negb (has_dot s)
         && negb (is_primitive s)
      then namespace st +:+ "." +:+ s else s) = Some l ->
  parse (S fuel) (VStr s) st = Ok (l, st).
Proof.
  intros Hr Hl. rewrite parse_string, (getOpts_string _ _ Hr).
  cbn [mbind result_bind]. cbv zeta. by rewrite Hl.
Qed.

Lemma getOpts_namespace_attr schema st st1 ns :
  getOpts schema st = Ok st1 ->
  attr schema "namespace" = Ok ns ->
  namespace st1 = if String.eqb ns "" then namespace st else ns.
Proof.
  unfold getOpts. intros H Hns. rewrite Hns in H. simpl in H.
  injection H as <-. simpl. by destruct (registry st), (String.eqb ns "").
Qed.

Lemma getQualifiedName_explicit schema space0 name ns :
  attr schema "name" = Ok name ->
  attr schema "namespace" = Ok ns ->
  name <> "" ->
  getQualifiedName schema space0
  = Ok (if has_dot name
           || String.eqb (if String.eqb ns "" then space0 else ns) ""
        then name
        else (if String.eqb ns "" then space0 else ns) +:+ "." +:+ name).
Proof.
  intros Hname Hns Hne. unfold getQualifiedName. rewrite Hname.
  cbn [mbind result_bind].
  destruct (String.eqb_spec name "") as [?|_]; [done|]. cbn [negb andb].
  destruct (has_dot name); [done|]. cbn [negb orb].
  rewrite Hns. cbn [mbind result_bind].
  by destruct (String.eqb (if String.eqb ns "" then space0 else ns) "").
Qed.

Lemma named_type_name fuel schema st l st' ty name :
  parse fuel schema st = Ok (l, st') ->
  get_prop schema "type" = Ok (VStr ty) ->
  ty ∈ ["enum"; "fixed"; "record"] ->
  attr schema "name" = Ok name ->
  name <> "".
Proof.
  intros H Hty Hin Hname ->. destruct fuel as [|fuel]; [discriminate|].
  simpl in H. apply bind_Ok in H as (st1 & _ & H).
  assert (Hc : parse_complex (parse fuel) fuel schema st1 = Ok (l, st')).
  { destruct schema; try done; simpl in Hty; discriminate. }
  clear H. unfold parse_complex in Hc. rewrite Hty in Hc. simpl in Hc.
  apply list_elem_of_In in Hin. simpl in Hin.
  destruct Hin as [<-|[<-|[<-|[]]]]; simpl in Hc;
    [unfold EnumType in Hc|unfold FixedType in Hc|unfold RecordType in Hc];
    rewrite Hname in Hc; discriminate.
Qed.

(** C7, as the code has it: a declaration of an enum, a fixed or a record
    puts the type object into the registry under its qualified name, the
    name itself when it has a dot or there is no namespace, and else the
    name after the namespace of the schema or, without one, the namespace
    in [opts].  What the name held before is replaced.  After [parse] the
    entry is the declared type object, for a record unless a declaration
    nested in it took the same name.  A reference is looked up as it is,
    or after the namespace that [opts] holds then, when there is one and
    the reference has no dot and names no primitive; when that name is the
    qualified name, the reference returns the entry and leaves the
    registry as it is. *)
Theorem named_type_resolution (fuel fuel' : nat) (schema : value)
  (st st' : state) (l : loc) (ty name ns : string) :
  parse fuel schema st = Ok (l, st') ->
  get_prop schema "type" = Ok (VStr ty) ->
  ty ∈ ["enum"; "fixed"; "record"] ->
  attr schema "name" = Ok name ->
  attr schema "namespace" = Ok ns ->
  let space := if String.eqb ns "" then namespace st else ns in
  let q := if has_dot name || String.eqb space "" then name
           else space +:+ "." +:+ name in
  exists (n : node) (l' : loc),
    heap st' !! l = Some n /\ type_name n = q /\ getTypeName n = Some ty
    /\ the_registry st' !! q = Some l'
    /\ (ty <> "record"
        \/ (forall l2 n2, (l < l2)%nat -> heap st' !! l2 = Some n2 ->
                          node_key n2 <> q) ->
        l' = l)
    /\ forall (st2 : state) (s : string),
        registry st2 = registry st' ->
        (if negb (String.eqb (namespace st2) "") && negb (has_dot s)
            && negb (is_primitive s)
         then namespace st2 +:+ "." +:+ s else s) = q ->
        parse (S fuel') (VStr s) st2 = Ok (l', st2).
Proof.
  intros H Hty Hin Hname Hns space q.
  pose proof (named_type_name _ _ _ _ _ _ _ H Hty Hin Hname) as Hne.
  destruct (named_type_registered _ _ _ _ _ _ H Hty Hin)
    as (st1 & q' & n & l' & n' & Hopts & Hq & Hn & Hqn & Hk & Hl' & Hn' & Hkey
        & Hle & Heq).
  rewrite (getQualifiedName_explicit _ _ _ _ Hname Hns Hne) in Hq.
  rewrite (getOpts_namespace_attr _ _ _ _ Hopts Hns) in Hq.
  assert (q' = q) as ->.
  { injection Hq as <-. unfold q, space. by destruct (String.eqb ns ""). }
  exists n, l'. repeat split; try done.
  - intros [Hrec|Hlater]; [by apply Heq|].
    destruct (decide (l' = l)) as [|Hdiff]; [done|].
    destruct (Hlater l' n'); [lia|done|done].
  - intros st2 s Hreg Hs. apply parse_lookup.
    + rewrite Hreg. unfold the_registry in Hl'.
      destruct (registry st'); [done|]. simpl in Hl'. by rewrite lookup_empty in Hl'.
    + rewrite Hs. unfold the_registry in *. by rewrite Hreg.
Qed.

(** C10, as the code has it: a name with a dot is the qualified name as it
    stands, whatever the namespace of the schema and the inherited one,
    and the type object is registered under it; after [parse] the entry
    under that name is the type object, for a record unless a declaration
    nested in it took the same name. *)
Theorem dotted_name_verbatim (fuel : nat) (schema : value) (st st' : state)
  (l : loc) (ty name : string) :
  get_prop schema "name" = Ok (VStr name) ->
  has_dot name = true ->
  get_prop schema "type" = Ok (VStr ty) ->
  ty ∈ ["enum"; "fixed"; "record"] ->
  parse fuel schema st = Ok (l, st') ->
  (forall ns : string, getQualifiedName schema ns = Ok name)
  /\ exists n : node,
      heap st' !! l = Some n /\ type_name n = name
      /\ (exists l', the_registry st' !! name = Some l' /\ (l <= l')%nat)
      /\ (ty <> "record"
          \/ (forall l2 n2, (l < l2)%nat -> heap st' !! l2 = Some n2 ->
                            node_key n2 <> name) ->
          the_registry st' !! name = Some l).
Proof.
  intros Hname Hdot Hty Hin H.
  split; [intros ns; by apply getQualifiedName_dotted|].
  destruct (named_type_registered _ _ _ _ _ _ H Hty Hin)
    as (st1 & q & n & l' & n' & _ & Hq & Hn & Hqn & _ & Hl' & Hn' & Hk & Hle & Heq).
  rewrite (getQualifiedName_dotted _ _ _ Hname Hdot) in Hq. injection Hq as <-.
  exists n. repeat split; try done; [eauto|].
  intros [Hrec|Hlater]; [by rewrite <- (Heq Hrec)|].
  destruct (decide (l' = l)) as [<-|Hdiff]; [done|].
  destruct (Hlater l' n'); [lia|done|done].
Qed.

Lemma named_type_resolution_witness :
  the_registry record_x_R_state !! "x.R" = Some 8%nat
  /\ parse 1 (VStr "R") record_x_R_state = Ok (8%nat, record_x_R_state)
  /\ parse 1 (VStr "x.R") (set_namespace "" record_x_R_state)
     = Ok (8%nat, set_namespace "" record_x_R_state).
Proof.
  destruct (named_type_resolution 2 0 record_x_R (new_opts "" false)
              record_x_R_state 8 "record" "R" "x")
    as (n & l' & _ & _ & _ & Hl' & Hsame & Href).
  - vm_compute. reflexivity.
  - reflexivity.
  - apply list_elem_of_further, list_elem_of_further, list_elem_of_here.
  - reflexivity.
  - reflexivity.
  - assert (l' = 8%nat) as ->.
    { apply Hsame. right. intros l2 n2 Hlt Hl2.
      apply lookup_lt_Some in Hl2. simpl in Hl2. lia. }
    split; [exact Hl'|]. split; apply Href; reflexivity.
Defined.

(** C7 as the claim has it fails for a reference in the same options
    after a nested declaration changed the namespace: the record [R] is
    declared and in the registry, its field declares an enum in the
    namespace [x], and the reference [R] that follows is looked up as
    [x.R] and fails.  And a name is not registered once only: the record
    [a.R] and the enum of its field both take the name [a.R], and the
    reference returns the enum, not the record that [parse] returned. *)
Lemma reference_after_nested_namespace_fails :
  parse 3 record_N (new_opts "" false) = Ok (8%nat, record_N_state)
  /\ the_registry record_N_state !! "R" = Some 8%nat
  /\ parse 1 (VStr "R") record_N_state
     = Throw (Error "missing name: " [VStr "x.R"])
  /\ parse 3 record_shadow (new_opts "" false) = Ok (8%nat, record_shadow_state)
  /\ parse 1 (VStr "a.R") record_shadow_state = Ok (9%nat, record_shadow_state).
Proof. vm_compute. repeat split; reflexivity. Qed.

Lemma dotted_name_verbatim_witness :
  (forall ns : string, getQualifiedName record_dotted ns = Ok "a.b.R")
  /\ the_registry record_dotted_state !! "a.b.R" = Some 8%nat.
Proof.
  destruct (dotted_name_verbatim 2 record_dotted (new_opts "y" false)
              record_dotted_state 8 "record" "a.b.R")
    as (Hq & n & _ & _ & _ & Hsame).
  - reflexivity.
  - reflexivity.
  - reflexivity.
  - apply list_elem_of_further, list_elem_of_further, list_elem_of_here.
  - vm_compute. reflexivity.
  - split; [exact Hq|]. apply Hsame. right. intros l2 n2 Hlt Hl2.
    apply lookup_lt_Some in Hl2. simpl in Hl2. lia.
Defined.

(** C10 as the claim has it fails for a record whose field declares a type
    of the same dotted name: after [parse] the registry holds the enum
    under [a.R], and not the record that [parse] returned. *)
Lemma dotted_record_entry_replaced :
  parse 3 record_shadow (new_opts "" false) = Ok (8%nat, record_shadow_state)
  /\ the_registry record_shadow_state !! "a.R" = Some 9%nat
  /\ heap record_shadow_state !! 8%nat
     = Some (NRecord "a.R" VUndefined [Field "e" VUndefined 9 VUndefined true] true)
  /\ heap record_shadow_state !! 9%nat
     = Some (NEnum "a.R" VUndefined ["A"] (<["A" := 0%nat]> ∅)).
Proof. vm_compute. repeat split; reflexivity. Qed.

(** ** Defaults of record fields *)

Lemma get_prop_defined v k k' x :
  get_prop v k = Ok x -> exists y, get_prop v k' = Ok y.
Proof.
  destruct v; simpl; try discriminate; intros _; eauto;
    destruct (String.eqb k' "length"); eauto.
Qed.

Lemma parse_each_throws {A B} (f : A -> state -> result (B * state))
  before x after st ys st1 e :
  parse_each f before st = Ok (ys, st1) ->
  f x st1 = Throw e ->
  parse_each f (before ++ x :: after) st = Throw e.
Proof.
  revert st ys. induction before as [|b before IH]; intros st ys Hb Hx; simpl in *.
  - injection Hb as <- <-. by rewrite Hx.
  - apply bind_Ok in Hb as ([y st0] & Hy & Hb).
    apply bind_Ok in Hb as ([ys' st2] & Hys & Hb). injection Hb as <- <-.
    rewrite Hy. simpl. by rewrite (IH _ _ Hys Hx).
Qed.

Lemma RecordType_field_invalid_default parse fuel self entry st
  fname ts type st1 n d d' first :
  get_prop entry "name" = Ok (VStr fname) ->
  not_object entry = false ->
  get_prop entry "type" = Ok ts ->
  parse ts st = Ok (type, st1) ->
  heap st1 !! type = Some n ->
  get_prop entry "default" = Ok d ->
  is_undefined d = false ->
  default_value n d = Ok d' ->
  default_type n type = Some first ->
  isValid fuel (heap st1) first d' = Ok false ->
  RecordType_field parse fuel self entry st
  = Throw (AvscError "invalid default for field %j in %j: %j"
             [VStr fname; VStr self; d']).
Proof.
  intros Hname Hobj Hts Hparse Hn Hd Hdef Hd' Hfirst Hvalid.
  destruct (get_prop_defined _ _ "doc" _ Hname) as [doc Hdoc].
  unfold RecordType_field.
  rewrite Hobj, Hname. simpl. rewrite Hts. simpl. rewrite Hparse. simpl.
  rewrite Hn. simpl. rewrite Hd. simpl. rewrite Hdoc. simpl.
  rewrite Hdef, Hd'. simpl. rewrite Hfirst. simpl. by rewrite Hvalid.
Qed.

(** X22: in a record schema, when the fields before an entry parse and
    the entry has a default on which the validation returns [false],
    [parse] throws the [AvscError] ['invalid default for field'].  The default is validated against the type of the field, and
    against the first branch alone when that type is a union, whatever the
    later branches accept; for a [fixed] or [bytes] field it is validated
    as the buffer of its characters. *)
Theorem invalid_default_rejected (fuel : nat) (schema : value)
  (st st1 st2 st3 : state) (name q fname : string) (doc : value)
  (before after : list value) (entry : value) (fields : list field)
  (ts : value) (type first : loc) (n : node) (d d' : value) :
  get_prop schema "type" = Ok (VStr "record") ->
  get_prop schema "name" = Ok (VStr name) ->
  name <> "" ->
  getOpts schema st = Ok st1 ->
  getQualifiedName schema (namespace st1) = Ok q ->
  q <> "__proto__" ->
  get_prop schema "doc" = Ok doc ->
  get_prop schema "fields" = Ok (VArr (before ++ entry :: after)) ->
  parse_each (RecordType_field (parse fuel) fuel q) before
    (register q (length (heap st1)) (alloc (NRecord q doc [] false) st1).2)
  = Ok (fields, st2) ->
  not_object entry = false ->
  get_prop entry "name" = Ok (VStr fname) ->
  get_prop entry "type" = Ok ts ->
  parse fuel ts st2 = Ok (type, st3) ->
  heap st3 !! type = Some n ->
  get_prop entry "default" = Ok d ->
  d <> VUndefined ->
  match n with
  | NFixed _ _ => Buffer_binary d = Ok d'
  | NPrimitive kind =>
      if String.eqb kind "bytes" then Buffer_binary d = Ok d' else d' = d
  | _ => d' = d
  end ->
  match n with
  | NWrappedUnion types _ _ | NUnwrappedUnion types _ => head types = Some first
  | _ => first = type
  end ->
  isValid fuel (heap st3) first d' = Ok false ->
  parse (S fuel) schema st
  = Throw (AvscError "invalid default for field %j in %j: %j"
             [VStr fname; VStr q; d']).
Proof.
  intros Hty Hname Hne Hopts Hq Hproto Hdoc Hfields Hbefore
    Hobj Hfname Hts Hparse Hn Hd Hdne Hd' Hfirst Hvalid.
  assert (Hc : parse (S fuel) schema st
               = parse_complex (parse fuel) fuel schema st1).
  { simpl. rewrite Hopts. simpl.
    destruct schema; try done; simpl in Hty; discriminate. }
  rewrite Hc. unfold parse_complex. rewrite Hty. simpl.
  unfold RecordType, attr. rewrite Hname. simpl.
  destruct (String.eqb_spec name ""); [done|].
  rewrite (getOpts_again _ _ _ Hopts). simpl. rewrite Hq. simpl.
  rewrite Hdoc. simpl.
  destruct (String.eqb_spec q "__proto__"); [done|].
  rewrite Hfields. simpl.
  erewrite parse_each_throws; [done|exact Hbefore|].
  eapply RecordType_field_invalid_default; try done.
  - by destruct d.
  - unfold default_value.
    destruct n as [kind| | | | | | |]; simpl; try (by subst d'); try done.
    destruct (String.eqb_spec kind "bytes") as [->|Hk].
    + by rewrite bool_decide_eq_true_2.
    + rewrite bool_decide_eq_false_2 by congruence. by subst d'.
  - destruct n; simpl; try (by subst first); done.
Qed.

Lemma invalid_default_rejected_witness :
  isValid 2 (heap record_U_union_state) 7 (VStr "a") = Ok true
  /\ parse 3 record_U (new_opts "" false)
     = Throw (AvscError "invalid default for field %j in %j: %j"
                [VStr "u"; VStr "U"; VStr "a"]).
Proof.
  split; [reflexivity|].
  apply (invalid_default_rejected 2 record_U (new_opts "" false)
           (plain_state primitive_nodes false)
           record_U_fields_state record_U_union_state
           "U" "U" "u" VUndefined [] [] field_u [] null_or_string
           9 0 null_or_string_node (VStr "a") (VStr "a")).
  - reflexivity.
  - reflexivity.
  - discriminate.
  - reflexivity.
  - reflexivity.
  - discriminate.
  - reflexivity.
  - reflexivity.
  - reflexivity.
  - reflexivity.
  - reflexivity.
  - reflexivity.
  - vm_compute. reflexivity.
  - reflexivity.
  - reflexivity.
  - discriminate.
  - reflexivity.
  - reflexivity.
  - reflexivity.
Defined.

(** C6: a default is validated with [isValid] of the type, and the
    [AvscError] is thrown when that returns [false].  [null] is no map,
    but the checker of a map lets it through its [typeof] guard, where the
    checker of a wrapped union asks for [null] first, and throws at
    [Object.keys(null)]: with [null] as the default of a map field [parse]
    fails with that [TypeError] and not with the [AvscError]. *)
Lemma null_default_of_map_throws_TypeError :
  parse 3 record_M (new_opts "" false)
  = Throw (TypeError "Cannot convert undefined or null to object")
  /\ forall message args,
      parse 3 record_M (new_opts "" false) <> Throw (AvscError message args).
Proof.
  assert (H : parse 3 record_M (new_opts "" false)
              = Throw (TypeError "Cannot convert undefined or null to object")).
  { vm_compute. reflexivity. }
  split; [exact H|]. intros message args. rewrite H. discriminate.
Qed.

(** ** The wire form of numbers *)










(** ** Writes on the cursor *)

Lemma put_length bs t : length (buf (Tap.put bs t)) = length (buf t).
Proof.
  unfold Tap.put. cbn [buf]. rewrite !length_app, !length_take, length_drop. lia.
Qed.







(** ** More fuel changes no result *)




(** ** Canonical values are valid *)









(** ** Unwrapped unions *)



(** ** Items, blocks and objects *)

Arguments Tap.varint : simpl never.
Arguments Tap.unvarint : simpl never.
Arguments Tap.zigzag : simpl never.
Arguments Tap.unzigzag : simpl never.













(** ** The bytes of canonical values *)
























Lemma encode_initial_size fuel h l obj opts :
  encode fuel h l obj opts
  = (valid ← (if match opts with Some o => unsafe o | None => false end
              then Ok true else isValid fuel h l obj);
     if negb valid then Throw (Error "invalid object" [])
     else
       tap ← _write fuel h l obj (Tap (replicate (initial_size opts) x00) 0);
       Ok (take (pos tap) (buf tap))).
Proof.
  unfold encode, initial_size. destruct opts as [[sz u]|]; simpl.
  - destruct (if u then _ else _) as [[]| | |]; simpl; try done;
      try by destruct (_write _ _ _ _ _).
  - destruct (isValid fuel h l obj) as [[]| | |]; simpl; try done;
      try by destruct (_write _ _ _ _ _).
Qed.


(** ** The tables of the type objects that [parse] builds *)

Lemma enum_indices_spec symbols :
  forall i0 idx0 ss indices,
    enum_indices i0 symbols idx0 = Ok (ss, indices) ->
    map VStr ss = symbols
    /\ forall s i,
        indices !! s = Some i ->
        idx0 !! s = Some i \/ ((i0 <= i)%nat /\ ss !! (i - i0)%nat = Some s).
Proof.
  induction symbols as [|v symbols IH]; intros i0 idx0 ss indices H; simpl in H.
  - injection H as <- <-. split; [done|]. intros s i Hi. by left.
  - destruct v; try discriminate.
    apply bind_Ok in H as ([ss' indices'] & Hrec & H). injection H as <- <-.
    destruct (IH _ _ _ _ Hrec) as [Hmap Hidx]. split; [by rewrite <- Hmap|].
    intros s0 i Hi. destruct (Hidx _ _ Hi) as [Hin|[Hle Hss]].
    + unfold table_set in Hin. destruct (String.eqb s "__proto__"); [by left|].
      rewrite lookup_insert in Hin. case_decide as Hd.
      * injection Hin as <-. subst s0. right. split; [lia|].
        by rewrite Nat.sub_diag.
      * by left.
    + right. split; [lia|].
      replace (i - i0)%nat with (S (i - S i0)) by lia. done.
Qed.

Lemma result_map_lookup {A B} (f : A -> result B) xs ys i x :
  result_map f xs = Ok ys -> xs !! i = Some x ->
  exists y, ys !! i = Some y /\ f x = Ok y.
Proof.
  revert ys i. induction xs as [|x0 xs IH]; intros ys i H Hi; [done|].
  simpl in H. apply bind_Ok in H as (y0 & Hy0 & H).
  apply bind_Ok in H as (ys' & Hys & H). injection H as <-.
  destruct i as [|i]; simpl in *.
  - injection Hi as <-. eauto.
  - by eapply IH.
Qed.

Lemma result_map_length {A B} (f : A -> result B) xs ys :
  result_map f xs = Ok ys -> length ys = length xs.
Proof.
  revert ys. induction xs as [|x0 xs IH]; intros ys H; simpl in H.
  - by injection H as <-.
  - apply bind_Ok in H as (y0 & Hy0 & H).
    apply bind_Ok in H as (ys' & Hys & H). injection H as <-.
    simpl. by rewrite (IH _ Hys).
Qed.

Lemma wrapped_union_wf h types indices constructors :
  union_indices h 0 types ∅ = Ok indices ->
  result_map (union_constructor h) types = Ok constructors ->
  wf_node (NWrappedUnion types indices constructors).
Proof.
  intros Hidx Hc name i Hi.
  apply (union_indices_spec _ _ _ _ _ Hidx) in Hi
    as [Hi|(j & t & n & -> & Hj & Hn & Hk)]; [by rewrite lookup_empty in Hi|].
  destruct (result_map_lookup _ _ _ _ _ Hc Hj) as (c & Hcj & Hct).
  simpl. rewrite Hcj. f_equal.
  unfold union_constructor in Hct. rewrite Hn in Hct.
  destruct (branch_name n) as [nm|]; [|discriminate]. simpl in Hk. subst nm.
  destruct (String.eqb name "null"); [by injection Hct|].
  destruct (if has_dot name then _ else _); [by injection Hct|discriminate].
Qed.

Lemma enum_wf name doc symbols ss indices :
  enum_indices 0 symbols ∅ = Ok (ss, indices) ->
  wf_node (NEnum name doc ss indices).
Proof.
  intros H s i Hi. destruct (enum_indices_spec _ _ _ _ _ H) as [_ Hidx].
  destruct (Hidx _ _ Hi) as [Hin|[_ Hss]]; [by rewrite lookup_empty in Hin|].
  by rewrite Nat.sub_0_r in Hss.
Qed.

Lemma alloc_wf n st :
  wf_heap (heap st) -> wf_node n -> wf_heap (heap (alloc n st).2).
Proof.
  intros Hwf Hn. unfold wf_heap. simpl. apply Forall_app. split; [done|].
  by constructor.
Qed.

Lemma createRegistry_wf st : wf_heap (heap st) -> wf_heap (heap (createRegistry st)).
Proof.
  unfold createRegistry. generalize PRIMITIVES. intros names. revert st.
  induction names as [|name names IH]; intros st Hwf; [done|].
  simpl. apply IH. simpl. apply Forall_app. split; [done|]. by constructor.
Qed.

Lemma getOpts_wf schema st st1 :
  getOpts schema st = Ok st1 -> wf_heap (heap st) -> wf_heap (heap st1).
Proof.
  unfold getOpts. intros H Hwf. apply bind_Ok in H as (ns & _ & H).
  injection H as <-. simpl.
  destruct (registry st); [done|by apply createRegistry_wf].
Qed.

Lemma parse_each_wf {A B} (f : A -> state -> result (B * state)) xs :
  (forall x st y st', f x st = Ok (y, st') ->
                      wf_heap (heap st) -> wf_heap (heap st')) ->
  forall st ys st', parse_each f xs st = Ok (ys, st') ->
                    wf_heap (heap st) -> wf_heap (heap st').
Proof.
  intros Hf. induction xs as [|x xs IH]; intros st ys st' H Hwf; simpl in H.
  - by injection H as <- <-.
  - apply bind_Ok in H as ([y st1] & Hy & H).
    apply bind_Ok in H as ([ys' st2] & Hys & H). injection H as <- <-.
    eapply IH; [done|]. by eapply Hf.
Qed.

Section ParseWf.

Variable parse : value -> state -> result (loc * state).
Variable fuel : nat.
Hypothesis parse_wf :
  forall schema st l st',
    parse schema st = Ok (l, st') -> wf_heap (heap st) -> wf_heap (heap st').

Lemma UnionType_wf schema st types st' :
  UnionType parse schema st = Ok (types, st') ->
  wf_heap (heap st) -> wf_heap (heap st').
Proof.
  unfold UnionType. destruct schema as [| | | | | |[|b branches]| |];
    try discriminate.
  intros H Hwf. apply bind_Ok in H as (st1 & Hopts & H).
  eapply parse_each_wf; [exact parse_wf|done|by eapply getOpts_wf].
Qed.

Lemma WrappedUnionType_wf schema st l st' :
  WrappedUnionType parse schema st = Ok (l, st') ->
  wf_heap (heap st) -> wf_heap (heap st').
Proof.
  unfold WrappedUnionType. intros H Hwf.
  apply bind_Ok in H as ([types st1] & Hu & H).
  apply bind_Ok in H as (indices & Hidx & H).
  apply bind_Ok in H as (constructors & Hc & H). injection H as <- <-.
  apply alloc_wf; [by eapply UnionType_wf|by eapply wrapped_union_wf].
Qed.

Lemma UnwrappedUnionType_wf schema st l st' :
  UnwrappedUnionType parse schema st = Ok (l, st') ->
  wf_heap (heap st) -> wf_heap (heap st').
Proof.
  unfold UnwrappedUnionType. intros H Hwf.
  apply bind_Ok in H as ([types st1] & Hu & H).
  apply bind_Ok in H as (indices & _ & H). injection H as <- <-.
  apply alloc_wf; [by eapply UnionType_wf|done].
Qed.

Lemma MapType_wf schema st l st' :
  MapType parse schema st = Ok (l, st') ->
  wf_heap (heap st) -> wf_heap (heap st').
Proof.
  unfold MapType. intros H Hwf. apply bind_Ok in H as (values & _ & H).
  destruct (negb (truthy values)); [discriminate|].
  apply bind_Ok in H as (st1 & Hopts & H).
  apply bind_Ok in H as ([t st2] & Hp & H). injection H as <- <-.
  apply alloc_wf; [|done]. eapply parse_wf; [done|by eapply getOpts_wf].
Qed.

Lemma ArrayType_wf schema st l st' :
  ArrayType parse schema st = Ok (l, st') ->
  wf_heap (heap st) -> wf_heap (heap st').
Proof.
  unfold ArrayType. intros H Hwf. apply bind_Ok in H as (items & _ & H).
  destruct (negb (truthy items)); [discriminate|].
  apply bind_Ok in H as (st1 & Hopts & H).
  apply bind_Ok in H as ([t st2] & Hp & H). injection H as <- <-.
  apply alloc_wf; [|done]. eapply parse_wf; [done|by eapply getOpts_wf].
Qed.

Lemma EnumType_wf schema st l st' :
  EnumType schema st = Ok (l, st') ->
  wf_heap (heap st) -> wf_heap (heap st').
Proof.
  unfold EnumType. intros H Hwf. apply bind_Ok in H as (name & _ & H).
  destruct (String.eqb name ""); [discriminate|].
  apply bind_Ok in H as (symbols & _ & H).
  destruct symbols as [| | | | | |[|s symbols]| |]; try discriminate.
  apply bind_Ok in H as (st1 & Hopts & H).
  apply bind_Ok in H as ([ss indices] & Hidx & H).
  apply bind_Ok in H as (q & Hq & H).
  apply bind_Ok in H as (doc & _ & H).
  destruct (String.eqb q "__proto__"); [discriminate|]. injection H as <- <-.
  apply (alloc_wf (NEnum q doc ss indices) st1);
    [by eapply getOpts_wf|by eapply enum_wf].
Qed.

Lemma FixedType_wf schema st l st' :
  FixedType schema st = Ok (l, st') ->
  wf_heap (heap st) -> wf_heap (heap st').
Proof.
  intros H Hwf. apply FixedType_spec in H as (st1 & q & size & Ho & _ & -> & ->).
  apply (alloc_wf (NFixed q size) st1); [by eapply getOpts_wf|done].
Qed.

Lemma RecordType_field_state self entry st f st' :
  RecordType_field parse fuel self entry st = Ok (f, st') ->
  exists ts type, parse ts st = Ok (type, st') /\ field_type f = type.
Proof.
  unfold RecordType_field. intros H.
  destruct (not_object entry); [discriminate|].
  apply bind_Ok in H as (name & _ & H).
  destruct name; try discriminate.
  apply bind_Ok in H as (ts & _ & H).
  apply bind_Ok in H as ([type st1] & Hp & H).
  apply bind_Ok in H as (n & _ & H).
  apply bind_Ok in H as (d & _ & H).
  apply bind_Ok in H as (doc & _ & H).
  exists ts, type.
  destruct (is_undefined d); [by injection H as <- <-|].
  apply bind_Ok in H as (d' & _ & H).
  apply bind_Ok in H as (first & _ & H).
  apply bind_Ok in H as (valid & _ & H).
  destruct (negb valid); [discriminate|]. by injection H as <- <-.
Qed.

Lemma RecordType_wf schema st l st' :
  RecordType parse fuel schema st = Ok (l, st') ->
  wf_heap (heap st) -> wf_heap (heap st').
Proof.
  intros H Hwf.
  apply RecordType_spec in H
    as (st1 & q & doc & entries & fields & stb & Ho & Hq & -> & _ & Hf & ->).
  unfold wf_heap. simpl. apply Forall_insert; [|done].
  eapply parse_each_wf; [|exact Hf|].
  - intros x sta y stc Hx.
    apply RecordType_field_state in Hx as (ts & type & Hp & _).
    by eapply parse_wf.
  - simpl. apply Forall_app. split; [by eapply getOpts_wf|by constructor].
Qed.

Lemma parse_complex_wf schema st l st' :
  parse_complex parse fuel schema st = Ok (l, st') ->
  wf_heap (heap st) -> wf_heap (heap st').
Proof.
  intros H Hwf. unfold parse_complex in H.
  apply bind_Ok in H as (type & Htype & H).
  destruct type as [| | | |type| | | |]; try discriminate.
  destruct (is_primitive type).
  { destruct (the_registry st !! type); [|discriminate]. by injection H as <- <-. }
  destruct (String.eqb type "array"); [by eapply ArrayType_wf|].
  destruct (String.eqb type "enum"); [by eapply EnumType_wf|].
  destruct (String.eqb type "fixed"); [by eapply FixedType_wf|].
  destruct (String.eqb type "map"); [by eapply MapType_wf|].
  destruct (String.eqb type "record"); [by eapply RecordType_wf|].
  discriminate.
Qed.

End ParseWf.

Lemma parse_wf fuel :
  forall schema st l st',
    parse fuel schema st = Ok (l, st') ->
    wf_heap (heap st) -> wf_heap (heap st').
Proof.
  induction fuel as [|fuel IH]; intros schema st l st' H Hwf; [discriminate|].
  simpl in H. apply bind_Ok in H as (st1 & Hopts & H).
  apply (getOpts_wf _ _ _ Hopts) in Hwf.
  destruct schema as [| | | |s| |branches|props|];
    try by eapply parse_complex_wf.
  - destruct (the_registry st1 !! _); [|by destruct (inherited _)]. by injection H as <- <-.
  - destruct (unwrapUnions st1);
      [by eapply UnwrappedUnionType_wf|by eapply WrappedUnionType_wf].
Qed.

(** ** Round trip *)







(** ** Errors of [parse] *)

Lemma getOpts_array branches st : exists st1, getOpts (VArr branches) st = Ok st1.
Proof. unfold getOpts. simpl. eauto. Qed.

(** X2: [parse] of an empty union throws the [AvscError] ['empty union'],
    whatever the options; [parse] of a schema that is neither a string nor
    an array and whose [type] is none of the known names throws the
    [AvscError] ['unknown type'] with that [type]. *)
Theorem parse_rejects_unknown (fuel : nat) (st : state) :
  parse (S fuel) (VArr []) st = Throw (AvscError "empty union" [])
  /\ forall (schema : value) (st1 : state) (type : value),
      match schema with VStr _ | VArr _ => False | _ => True end ->
      getOpts schema st = Ok st1 ->
      get_prop schema "type" = Ok type ->
      (forall s, type = VStr s ->
                 s ∉ PRIMITIVES ++ ["array"; "enum"; "fixed"; "map"; "record"]) ->
      parse (S fuel) schema st = Throw (AvscError "unknown type: %j" [type]).
Proof.
  split.
  - rewrite parse_array. destruct (getOpts_array [] st) as [st1 ->]. simpl.
    by destruct (unwrapUnions st1).
  - intros schema st1 type Hschema Hopts Htype Hunknown.
    assert (Hc : parse (S fuel) schema st
                 = parse_complex (parse fuel) fuel schema st1).
    { simpl. rewrite Hopts. by destruct schema. }
    rewrite Hc. unfold parse_complex. rewrite Htype. simpl.
    destruct type as [| | | |s| | | |]; try done.
    specialize (Hunknown s eq_refl).
    assert (Hne : forall k, k ∈ PRIMITIVES ++ ["array"; "enum"; "fixed"; "map"; "record"]
                            -> String.eqb s k = false).
    { intros k Hk. destruct (String.eqb_spec s k) as [->|]; done. }
    unfold is_primitive, PRIMITIVES in *. simpl.
    rewrite !Hne by (apply list_elem_of_In; simpl; tauto). done.
Qed.

Lemma parse_rejects_unknown_witness :
  parse 1 (VArr []) (new_opts "" false) = Throw (AvscError "empty union" [])
  /\ parse 1 (VObj [("type", VStr "set")]) (new_opts "" false)
     = Throw (AvscError "unknown type: %j" [VStr "set"]).
Proof.
  destruct (parse_rejects_unknown 0 (new_opts "" false)) as [Hempty Hunknown].
  split; [exact Hempty|].
  apply (Hunknown (VObj [("type", VStr "set")]) (plain_state primitive_nodes false)).
  - exact I.
  - vm_compute. reflexivity.
  - reflexivity.
  - intros s [= <-] Hin. apply list_elem_of_In in Hin. simpl in Hin.
    repeat (destruct Hin as [Hin|Hin]; [discriminate|]). done.
Defined.

(** ** Validity of primitive values *)

Lemma check_unwrapped fuel h l types indices v :
  h !! l = Some (NUnwrappedUnion types indices) ->
  _check (S fuel) h l v = some (fun t => _check fuel h t v) types.
Proof. intros Hl. simpl. by rewrite Hl. Qed.

Lemma some_reaches {A} (f : A -> result bool) xs :
  forall i x,
    xs !! i = Some x ->
    (forall j y, (j < i)%nat -> xs !! j = Some y -> exists b, f y = Ok b) ->
    f x = Ok true ->
    some f xs = Ok true.
Proof.
  induction xs as [|x0 xs IH]; intros i x Hi Hbefore Hx; [done|].
  destruct i as [|i]; simpl in *.
  - injection Hi as ->. by rewrite Hx.
  - destruct (Hbefore 0%nat x0) as [[] Hb]; [lia|done| |]; rewrite Hb; simpl; [done|].
    apply (IH i x Hi); [|done].
    intros j y Hj Hy. apply (Hbefore (S j) y); [lia|done].
Qed.

(** X3: the [_check] of [boolean], [o !== !o], holds for every value, so
    the type accepts every value, and so does an unwrapped union with a
    [boolean] branch, for every value on which the branches before that
    one return, [true] or [false], and do not throw. *)
Theorem boolean_accepts_everything (fuel : nat) (h : list node) (l u : loc)
  (types : list loc) (indices : gmap string nat) (i : nat) (v : value) :
  h !! l = Some (NPrimitive "boolean") ->
  h !! u = Some (NUnwrappedUnion types indices) ->
  types !! i = Some l ->
  (forall j t, (j < i)%nat -> types !! j = Some t ->
               exists b, isValid (S fuel) h t v = Ok b) ->
  isValid (S fuel) h l v = Ok true
  /\ isValid (S (S fuel)) h u v = Ok true.
Proof.
  intros Hl Hu Hi Hbefore.
  assert (Hb : forall fuel', isValid (S fuel') h l v = Ok true).
  { intros fuel'. unfold isValid. simpl. rewrite Hl.
    unfold PrimitiveType_check. simpl. by destruct v as [| |[]| | | | | |]. }
  split; [apply Hb|].
  unfold isValid in *. rewrite (check_unwrapped _ _ _ _ _ _ Hu).
  by apply (some_reaches _ types i l).
Qed.

Lemma boolean_accepts_everything_witness :
  isValid 1 (primitive_nodes ++ [NUnwrappedUnion [7; 1]%nat ∅]) 1 (VNum 3)
  = Ok true
  /\ isValid 2 (primitive_nodes ++ [NUnwrappedUnion [7; 1]%nat ∅]) 8 (VNum 3)
     = Ok true.
Proof.
  apply (boolean_accepts_everything 0
           (primitive_nodes ++ [NUnwrappedUnion [7; 1]%nat ∅]) 1 8 [7; 1]%nat ∅
           1%nat (VNum 3)); try reflexivity.
  intros [|j] t Hj Ht; [|lia]. injection Ht as <-. exists false. reflexivity.
Defined.

Lemma to_int32_fixpoint z : z = to_int32 z <-> - 2 ^ 31 <= z < 2 ^ 31.
Proof.
  unfold to_int32. split.
  - intros Hz. pose proof (Z.mod_pos_bound (z + 2 ^ 31) (2 ^ 32) ltac:(lia)). lia.
  - intros Hz. rewrite Z.mod_small by lia. lia.
Qed.



(** ** Validity for a map *)

(** X5: the [_check] of a map throws a [TypeError] on [null]
    ([Object.keys(null)]), refuses every array and every value that is no
    object, and accepts the object without keys. *)
Theorem map_check_edges (fuel : nat) (h : list node) (l valuesType : loc)
  (elems : list value) :
  h !! l = Some (NMap valuesType) ->
  isValid (S fuel) h l VNull
  = Throw (TypeError "Cannot convert undefined or null to object")
  /\ isValid (S fuel) h l (VArr elems) = Ok false
  /\ (forall v, not_object v = true -> isValid (S fuel) h l v = Ok false)
  /\ isValid (S fuel) h l (VObj []) = Ok true.
Proof.
  intros Hl. unfold isValid. cbn [_check]. rewrite Hl.
  split; [done|]. split; [done|]. split; [|done].
  intros v Hv. by rewrite Hv.
Qed.

Lemma map_check_edges_witness :
  isValid 1 (primitive_nodes ++ [NMap 2]) 8 VNull
  = Throw (TypeError "Cannot convert undefined or null to object")
  /\ isValid 1 (primitive_nodes ++ [NMap 2]) 8 (VArr [VNum 1]) = Ok false
  /\ (forall v, not_object v = true ->
                isValid 1 (primitive_nodes ++ [NMap 2]) 8 v = Ok false)
  /\ isValid 1 (primitive_nodes ++ [NMap 2]) 8 (VObj []) = Ok true.
Proof.
  apply (map_check_edges 0 (primitive_nodes ++ [NMap 2]) 8 2 [VNum 1]).
  reflexivity.
Defined.

(** ** Union indices that name no branch *)

(** X6: for a wrapped union that [WrappedUnionType] built, an index
    outside the branches is no failure: [_read] finds no constructor and
    returns [null], and [decode] throws only when the cursor ran past the
    end of the buffer. *)
Theorem wrapped_union_decode_unknown_index
  (parse : value -> state -> result (loc * state))
  (schema : value) (st st' : state) (l : loc) :
  WrappedUnionType parse schema st = Ok (l, st') ->
  exists types indices constructors,
    heap st' !! l = Some (NWrappedUnion types indices constructors)
    /\ forall (fuel : nat) (bytes : list byte) (i : Z) (t1 : tap),
        Tap.readLong (Tap bytes 0) = (i, t1) ->
        ~ (0 <= i < Z.of_nat (length types)) ->
        decode (S fuel) (heap st') l bytes
        = if Tap.isValid t1 then Ok VNull
          else Throw (Error "truncated buffer" []).
Proof.
  unfold WrappedUnionType. intros H.
  apply bind_Ok in H as ([types st1] & Hu & H).
  apply bind_Ok in H as (indices & Hidx & H).
  apply bind_Ok in H as (constructors & Hc & H).
  injection H as <- <-. exists types, indices, constructors.
  split; [apply alloc_lookup_new|].
  intros fuel bytes i t1 Hread Hi. unfold decode. cbn [_read].
  replace (length (heap st1))
    with (alloc (NWrappedUnion types indices constructors) st1).1 by done.
  rewrite alloc_lookup_new, Hread.
  rewrite (at_index_None constructors) by by rewrite (result_map_length _ _ _ Hc).
  cbn [mbind result_bind]. by destruct (Tap.isValid t1).
Qed.

Lemma wrapped_union_decode_unknown_index_witness :
  exists types indices constructors,
    null_or_string_heap !! 8%nat = Some (NWrappedUnion types indices constructors)
    /\ forall (fuel : nat) (bytes : list byte) (i : Z) (t1 : tap),
        Tap.readLong (Tap bytes 0) = (i, t1) ->
        ~ (0 <= i < Z.of_nat (length types)) ->
        decode (S fuel) null_or_string_heap 8 bytes
        = if Tap.isValid t1 then Ok VNull
          else Throw (Error "truncated buffer" []).
Proof.
  apply (wrapped_union_decode_unknown_index (parse 1) null_or_string
           (createRegistry (new_opts "" false))
           (plain_state null_or_string_heap false) 8).
  vm_compute. reflexivity.
Defined.

(** X7: for an unwrapped union an index outside the branches makes [_read]
    call a method of [undefined]: [decode] throws a [TypeError]. *)
Theorem unwrapped_union_decode_unknown_index (fuel : nat) (h : list node)
  (l : loc) (types : list loc) (indices : gmap string nat)
  (bytes : list byte) (i : Z) (t1 : tap) :
  h !! l = Some (NUnwrappedUnion types indices) ->
  Tap.readLong (Tap bytes 0) = (i, t1) ->
  ~ (0 <= i < Z.of_nat (length types)) ->
  decode (S fuel) h l bytes
  = Throw (TypeError "Cannot read property '_read' of undefined").
Proof.
  intros Hl Hread Hi. unfold decode. cbn [_read]. rewrite Hl, Hread.
  by rewrite (at_index_None types).
Qed.

Lemma unwrapped_union_decode_unknown_index_witness :
  decode 1 int_or_string_heap 8 [x04]
  = Throw (TypeError "Cannot read property '_read' of undefined").
Proof.
  apply (unwrapped_union_decode_unknown_index 0 int_or_string_heap 8 [2; 7]%nat
           (<["string" := 1%nat]> (<["int" := 0%nat]> ∅)) [x04] 2 (Tap [x04] 1)).
  - reflexivity.
  - reflexivity.
  - simpl. lia.
Defined.

(** ** What [parse] leaves in place *)

(** X8: a successful [parse] changes no type object that was there before
    the call, keeps [unwrapUnions], and keeps every name of the registry
    (the entry may lead to a type object declared later under that name). *)
Theorem parse_keeps_type_objects (fuel : nat) (schema : value)
  (st st' : state) (l : loc) :
  parse fuel schema st = Ok (l, st') ->
  (forall l0 n, heap st !! l0 = Some n -> heap st' !! l0 = Some n)
  /\ unwrapUnions st' = unwrapUnions st
  /\ (forall k l0, the_registry st !! k = Some l0 ->
                   exists l1, the_registry st' !! k = Some l1
                              /\ (l1 = l0 \/ (length (heap st) <= l1)%nat)).
Proof.
  intros H. destruct (parse_extends _ _ _ _ _ H) as (Hp & Hu & Hold & _).
  split; [|done]. intros l0 n Hn. by eapply prefix_lookup_Some.
Qed.

Lemma parse_keeps_type_objects_witness :
  (forall l0 n, primitive_nodes !! l0 = Some n -> enum_E_heap !! l0 = Some n)
  /\ unwrapUnions (register "E" 8 (plain_state enum_E_heap false)) = false
  /\ (forall k l0,
        the_registry (plain_state primitive_nodes false) !! k = Some l0 ->
        exists l1,
          the_registry (register "E" 8 (plain_state enum_E_heap false)) !! k
          = Some l1
          /\ (l1 = l0 \/ (length primitive_nodes <= l1)%nat)).
Proof.
  apply (parse_keeps_type_objects 1 enum_E (plain_state primitive_nodes false)
           (register "E" 8 (plain_state enum_E_heap false)) 8).
  vm_compute. reflexivity.
Defined.

(** ** The namespace that a schema leaves in [opts] *)

Lemma getOpts_namespace schema st st1 ns :
  getOpts schema st = Ok st1 ->
  get_prop schema "namespace" = Ok (VStr ns) -> ns <> "" ->
  namespace st1 = ns.
Proof.
  unfold getOpts, attr. intros H Hns Hne. rewrite Hns in H. simpl in H.
  injection H as <-. simpl. by destruct (String.eqb_spec ns "").
Qed.

(** X9: [getOpts] writes the namespace of a schema into the one [opts]
    object, and nothing takes it out again: after [parse] of an enum or a
    fixed with a [namespace] attribute, that namespace is the one in
    effect, and a later reference by a short name in the same [opts] is
    looked up in it. *)
Theorem namespace_stays_in_opts (fuel : nat) (schema : value) (st st' : state)
  (l : loc) (ty ns : string) :
  parse fuel schema st = Ok (l, st') ->
  get_prop schema "type" = Ok (VStr ty) ->
  ty ∈ ["enum"; "fixed"] ->
  get_prop schema "namespace" = Ok (VStr ns) ->
  ns <> "" ->
  namespace st' = ns
  /\ forall (fuel' : nat) (s : string) (l2 : loc),
      has_dot s = false -> is_primitive s = false ->
      the_registry st' !! (ns +:+ "." +:+ s) = Some l2 ->
      parse (S fuel') (VStr s) st' = Ok (l2, st').
Proof.
  intros H Hty Hin Hns Hne. destruct fuel as [|fuel]; [discriminate|].
  simpl in H. apply bind_Ok in H as (st1 & Hopts & H).
  pose proof (getOpts_again _ _ _ Hopts) as Hagain.
  pose proof (getOpts_namespace _ _ _ _ Hopts Hns Hne) as Hns1.
  assert (Hc : parse_complex (parse fuel) fuel schema st1 = Ok (l, st')).
  { destruct schema; try done; simpl in Hty; discriminate. }
  clear H. unfold parse_complex in Hc. rewrite Hty in Hc. simpl in Hc.
  assert (Hst' : namespace st' = ns /\ is_Some (registry st')).
  { apply elem_of_cons in Hin as [->|Hin].
    - simpl in Hc.
      apply EnumType_spec in Hc as (st2 & q & doc & symbols & indices & Ho & _ & -> & ->).
      rewrite Hagain in Ho. injection Ho as <-. simpl. eauto.
    - apply elem_of_cons in Hin as [->|Hin]; [|by apply elem_of_nil in Hin].
      simpl in Hc.
      apply FixedType_spec in Hc as (st2 & q & size & Ho & _ & -> & ->).
      rewrite Hagain in Ho. injection Ho as <-. simpl. eauto. }
  destruct Hst' as [Hns' Hreg]. split; [done|].
  intros fuel' s l2 Hdot Hprim Hl2.
  rewrite parse_string, (getOpts_string _ _ Hreg). simpl.
  rewrite Hns', Hdot, Hprim.
  destruct (String.eqb_spec ns ""); [done|]. simpl. by rewrite Hl2.
Qed.

Lemma namespace_stays_in_opts_witness :
  namespace enum_x_E_state = "x"
  /\ forall (fuel' : nat) (s : string) (l2 : loc),
      has_dot s = false -> is_primitive s = false ->
      the_registry enum_x_E_state !! ("x" +:+ "." +:+ s) = Some l2 ->
      parse (S fuel') (VStr s) enum_x_E_state = Ok (l2, enum_x_E_state).
Proof.
  apply (namespace_stays_in_opts 1 enum_x_E (new_opts "" false)
           enum_x_E_state 8 "enum" "x").
  - vm_compute. reflexivity.
  - reflexivity.
  - apply list_elem_of_here.
  - reflexivity.
  - discriminate.
Defined.

(** ** The branches of a union that has been built *)

Lemma parse_each_length {A B} (f : A -> state -> result (B * state)) xs :
  forall st ys st', parse_each f xs st = Ok (ys, st') -> length ys = length xs.
Proof.
  induction xs as [|x xs IH]; intros st ys st' H; simpl in H.
  - by injection H as <- <-.
  - apply bind_Ok in H as ([y st1] & _ & H).
    apply bind_Ok in H as ([ys' st2] & Hxs & H). injection H as <- <-.
    simpl. f_equal. eauto.
Qed.

Lemma UnionType_length parse branches st types st' :
  UnionType parse (VArr branches) st = Ok (types, st') ->
  length types = length branches.
Proof.
  unfold UnionType. destruct branches as [|b branches]; [discriminate|].
  intros H. apply bind_Ok in H as (st1 & _ & H).
  by apply parse_each_length in H.
Qed.

(** X10: the converse of the duplicate check.  A union that [parse]
    returns has one branch for each entry of the schema, no two of its
    branches have the same name, and [indices] sends the name of each
    branch to its position. *)
Theorem union_branch_names_distinct (fuel : nat) (branches : list value)
  (st st' : state) (l : loc) :
  parse (S fuel) (VArr branches) st = Ok (l, st') ->
  exists types indices,
    (heap st' !! l = Some (NUnwrappedUnion types indices)
     \/ exists constructors,
         heap st' !! l = Some (NWrappedUnion types indices constructors))
    /\ length types = length branches
    /\ (forall i t n,
          types !! i = Some t -> heap st' !! t = Some n ->
          indices !! key_of_name (branch_name n) = Some i)
    /\ (forall i j ti tj ni nj,
          types !! i = Some ti -> types !! j = Some tj ->
          heap st' !! ti = Some ni -> heap st' !! tj = Some nj ->
          key_of_name (branch_name ni) = key_of_name (branch_name nj) ->
          i = j).
Proof.
  rewrite parse_array. intros H. apply bind_Ok in H as (st1 & _ & H).
  assert (Hu : exists types indices st2 node,
             UnionType (parse fuel) (VArr branches) st1 = Ok (types, st2)
             /\ union_indices (heap st2) 0 types ∅ = Ok indices
             /\ (l, st') = alloc node st2
             /\ (node = NUnwrappedUnion types indices
                 \/ exists c, node = NWrappedUnion types indices c)).
  { destruct (unwrapUnions st1).
    - unfold UnwrappedUnionType in H.
      apply bind_Ok in H as ([types st2] & Hu & H).
      apply bind_Ok in H as (indices & Hidx & H). injection H as <- <-.
      exists types, indices, st2, (NUnwrappedUnion types indices). eauto.
    - unfold WrappedUnionType in H.
      apply bind_Ok in H as ([types st2] & Hu & H).
      apply bind_Ok in H as (indices & Hidx & H).
      apply bind_Ok in H as (c & Hc & H). injection H as <- <-.
      exists types, indices, st2, (NWrappedUnion types indices c).
      repeat split; eauto. }
  destruct Hu as (types & indices & st2 & node & Hu & Hidx & Hst & Hnode).
  injection Hst as -> ->.
  pose proof (union_indices_spec _ _ _ _ _ Hidx) as Hspec.
  pose proof (union_indices_resolved _ _ _ _ _ Hidx) as Hres.
  assert (Hold : forall i t n,
             types !! i = Some t -> heap (alloc node st2).2 !! t = Some n ->
             heap st2 !! t = Some n).
  { intros i t n Hi Hn.
    destruct (Hres t) as [n' Hn']; [by eapply list_elem_of_lookup_2|].
    rewrite (alloc_lookup_old _ _ _ _ Hn') in Hn. congruence. }
  assert (Hpos : forall i t n,
             types !! i = Some t -> heap (alloc node st2).2 !! t = Some n ->
             indices !! key_of_name (branch_name n) = Some i).
  { intros i t n Hi Hn. apply Hspec. right. exists i, t, n.
    repeat split; eauto. }
  exists types, indices. split; [|split; [|split]].
  - replace (length (heap st2)) with (alloc node st2).1 by done.
    rewrite alloc_lookup_new.
    destruct Hnode as [->|[c ->]]; eauto.
  - by eapply UnionType_length.
  - exact Hpos.
  - intros i j ti tj ni nj Hi Hj Hni Hnj Hk.
    pose proof (Hpos _ _ _ Hi Hni) as H1.
    pose proof (Hpos _ _ _ Hj Hnj) as H2.
    rewrite Hk in H1. congruence.
Qed.

Lemma union_branch_names_distinct_witness :
  exists types indices,
    (heap (plain_state null_or_string_heap false) !! 8%nat
     = Some (NUnwrappedUnion types indices)
     \/ exists constructors,
         heap (plain_state null_or_string_heap false) !! 8%nat
         = Some (NWrappedUnion types indices constructors))
    /\ length types = length [VStr "null"; VStr "string"]
    /\ (forall i t n,
          types !! i = Some t ->
          heap (plain_state null_or_string_heap false) !! t = Some n ->
          indices !! key_of_name (branch_name n) = Some i)
    /\ (forall i j ti tj ni nj,
          types !! i = Some ti -> types !! j = Some tj ->
          heap (plain_state null_or_string_heap false) !! ti = Some ni ->
          heap (plain_state null_or_string_heap false) !! tj = Some nj ->
          key_of_name (branch_name ni) = key_of_name (branch_name nj) ->
          i = j).
Proof.
  apply (union_branch_names_distinct 1 [VStr "null"; VStr "string"]
           (new_opts "" false)).
  vm_compute. reflexivity.
Defined.

(** ** The symbols of an enum *)

Lemma inherited_spec s : inherited s = true <-> s ∈ Object_prototype_names.
Proof.
  unfold inherited. rewrite existsb_exists. split.
  - intros (k & Hk & Heq). apply String.eqb_eq in Heq as ->.
    by apply list_elem_of_In.
  - intros Hin. exists s. split; [by apply list_elem_of_In|apply String.eqb_refl].
Qed.

Lemma table_set_other k i table s :
  s <> k -> table_set k i table !! s = table !! s.
Proof.
  intros Hne. unfold table_set. destruct (String.eqb k "__proto__"); [done|].
  by rewrite lookup_insert_ne.
Qed.

Lemma enum_indices_last symbols :
  forall i0 idx0 ss indices,
    enum_indices i0 symbols idx0 = Ok (ss, indices) ->
    (forall s i, idx0 !! s = Some i -> s ∉ ss -> indices !! s = Some i)
    /\ (forall s j,
          s <> "__proto__" -> ss !! j = Some s ->
          (forall j', (j < j')%nat -> ss !! j' <> Some s) ->
          indices !! s = Some (i0 + j)%nat).
Proof.
  induction symbols as [|x symbols IH]; intros i0 idx0 ss indices H; simpl in H.
  - injection H as <- <-. split; [done|]. intros s j _ Hj. discriminate.
  - destruct x as [| | | |s1| | | |]; try discriminate.
    apply bind_Ok in H as ([ss' idx'] & Hrec & H). injection H as <- <-.
    destruct (IH _ _ _ _ Hrec) as [Hkeep Hlast]. split.
    + intros s i Hi Hnot. apply not_elem_of_cons in Hnot as [Hne Hnot].
      apply Hkeep; [|done]. by rewrite table_set_other.
    + intros s [|j] Hproto Hj Hafter; simpl in Hj.
      * injection Hj as ->. rewrite Nat.add_0_r. apply Hkeep.
        -- rewrite table_set_insert by done. apply lookup_insert_eq.
        -- intros Hin. apply list_elem_of_lookup_1 in Hin as [j' Hj'].
           apply (Hafter (S j')); [lia|done].
      * replace (i0 + S j)%nat with (S i0 + j)%nat by lia.
        apply Hlast; [done|done|].
        intros j' Hlt. apply (Hafter (S j')). lia.
Qed.

(** X11: the table of an enum.  For an enum that [parse] returns, a symbol
    that the schema lists, other than ['__proto__'], is valid and is
    written as the index of its last occurrence in [symbols]: a symbol
    listed twice is never written as its first index.  A value that is no
    string is not valid, and a string that is no symbol is not valid
    either, unless it names a property of [Object.prototype]: such a
    string is valid for every enum. *)
Theorem enum_symbols (fuel : nat) (schema : value) (st st' : state) (l : loc) :
  parse fuel schema st = Ok (l, st') ->
  get_prop schema "type" = Ok (VStr "enum") ->
  exists name doc symbols indices,
    heap st' !! l = Some (NEnum name doc symbols indices)
    /\ get_prop schema "symbols" = Ok (VArr (map VStr symbols))
    /\ (forall (fuel' i : nat) (s : string) (t : tap),
          symbols !! i = Some s ->
          (forall j, (i < j)%nat -> symbols !! j <> Some s) ->
          s <> "__proto__" ->
          isValid (S fuel') (heap st') l (VStr s) = Ok true
          /\ _write (S fuel') (heap st') l (VStr s) t
             = Ok (Tap.writeLong (Z.of_nat i) t))
    /\ (forall (fuel' : nat) (v : value),
          (forall s, v = VStr s ->
                     (s ∉ symbols) /\ (s ∉ Object_prototype_names)) ->
          isValid (S fuel') (heap st') l v = Ok false)
    /\ (forall (fuel' : nat) (s : string),
          s ∈ Object_prototype_names ->
          isValid (S fuel') (heap st') l (VStr s) = Ok true).
Proof.
  intros H Hty. destruct fuel as [|fuel]; [discriminate|].
  simpl in H. apply bind_Ok in H as (st1 & Hopts & H).
  assert (Hc : parse_complex (parse fuel) fuel schema st1 = Ok (l, st')).
  { destruct schema; try done; simpl in Hty; discriminate. }
  clear H. unfold parse_complex in Hc. rewrite Hty in Hc. simpl in Hc.
  unfold EnumType in Hc.
  apply bind_Ok in Hc as (name0 & _ & Hc).
  destruct (String.eqb name0 ""); [discriminate|].
  apply bind_Ok in Hc as (syms & Hsyms & Hc).
  destruct syms as [| | | | | |[|x xs]| |]; try discriminate.
  apply bind_Ok in Hc as (st2 & _ & Hc).
  apply bind_Ok in Hc as ([symbols indices] & Hidx & Hc).
  apply bind_Ok in Hc as (name & _ & Hc).
  apply bind_Ok in Hc as (doc & _ & Hc).
  destruct (String.eqb name "__proto__"); [discriminate|].
  injection Hc as <- Hst.
  destruct (enum_indices_last _ _ _ _ _ Hidx) as [_ Hlast].
  destruct (enum_indices_spec _ _ _ _ _ Hidx) as [Heq Hown].
  exists name, doc, symbols, indices.
  assert (Hl : heap st' !! length (heap st2)
               = Some (NEnum name doc symbols indices)).
  { rewrite <- Hst. exact (alloc_lookup_new (NEnum name doc symbols indices) st2). }
  clear Hst.
  split; [exact Hl|]. split; [by rewrite Hsyms, Heq|]. split; [|split].
  - intros fuel' i s t Hi Hafter Hproto.
    pose proof (Hlast s i Hproto Hi Hafter) as Hs. simpl in Hs.
    unfold isValid. cbn [_check _write]. rewrite Hl, Hs.
    split; [|done]. f_equal. by eapply table_defined_own.
  - intros fuel' v Hv. unfold isValid. cbn [_check]. rewrite Hl.
    destruct v as [| | | |s| | | |]; try done. f_equal.
    destruct (Hv s eq_refl) as [Hsym Hinh].
    unfold table_defined. apply orb_false_intro.
    + apply bool_decide_eq_false. intros [i Hi].
      destruct (Hown _ _ Hi) as [Hi0|[_ Hss]]; [by rewrite lookup_empty in Hi0|].
      apply Hsym. by eapply list_elem_of_lookup_2.
    + destruct (inherited s) eqn:Hin; [|done].
      by apply inherited_spec in Hin.
  - intros fuel' s Hs. unfold isValid. cbn [_check]. rewrite Hl. f_equal.
    unfold table_defined. apply inherited_spec in Hs. rewrite Hs.
    apply orb_true_r.
Qed.

Lemma enum_symbols_witness :
  exists name doc symbols indices,
    heap enum_D_state !! 8%nat = Some (NEnum name doc symbols indices)
    /\ get_prop enum_D "symbols" = Ok (VArr (map VStr symbols))
    /\ (forall (fuel' i : nat) (s : string) (t : tap),
          symbols !! i = Some s ->
          (forall j, (i < j)%nat -> symbols !! j <> Some s) ->
          s <> "__proto__" ->
          isValid (S fuel') (heap enum_D_state) 8 (VStr s) = Ok true
          /\ _write (S fuel') (heap enum_D_state) 8 (VStr s) t
             = Ok (Tap.writeLong (Z.of_nat i) t))
    /\ (forall (fuel' : nat) (v : value),
          (forall s, v = VStr s ->
                     (s ∉ symbols) /\ (s ∉ Object_prototype_names)) ->
          isValid (S fuel') (heap enum_D_state) 8 v = Ok false)
    /\ (forall (fuel' : nat) (s : string),
          s ∈ Object_prototype_names ->
          isValid (S fuel') (heap enum_D_state) 8 (VStr s) = Ok true).
Proof.
  apply (enum_symbols 1 enum_D (new_opts "" false)).
  - vm_compute. reflexivity.
  - reflexivity.
Defined.

(** ** What [decode] and [encode] do with the ends of the buffer *)



Lemma writeItems_length {A} (fn : A -> tap -> result tap) xs :
  (forall x t t', fn x t = Ok t' -> length (buf t') = length (buf t)) ->
  forall t t', Tap.writeItems fn xs t = Ok t' -> length (buf t') = length (buf t).
Proof.
  intros Hfn. induction xs as [|x xs IH]; intros t t' H; simpl in H.
  - by injection H as <-.
  - apply bind_Ok in H as (t1 & H1 & H).
    rewrite (IH _ _ H). eauto.
Qed.

Lemma writeBlock_length {A} (fn : A -> tap -> result tap) xs :
  (forall x t t', fn x t = Ok t' -> length (buf t') = length (buf t)) ->
  forall t t', Tap.writeBlock fn xs t = Ok t' -> length (buf t') = length (buf t).
Proof.
  intros Hfn t t' H. unfold Tap.writeBlock in H.
  apply bind_Ok in H as (t1 & H1 & H). injection H as <-.
  unfold Tap.writeLong at 1. rewrite put_length.
  destruct xs as [|x xs].
  - by injection H1 as <-.
  - rewrite (writeItems_length fn _ Hfn _ _ H1).
    unfold Tap.writeLong. by rewrite put_length.
Qed.

Lemma write_length fuel h :
  forall l v t t', _write fuel h l v t = Ok t' -> length (buf t') = length (buf t).
Proof.
  induction fuel as [|fuel IH]; intros l v t t' H; [discriminate|].
  cbn [_write] in H.
  destruct (h !! l) as [[name|types indices ctors|types indices|name doc symbols indices
                        |name size|values|items|name doc fields built]|];
    [| | | | | | | |discriminate].
  - unfold PrimitiveType_write in H.
    repeat match type of H with
           | (if ?c then _ else _) = _ => destruct c
           | match ?x with _ => _ end = _ => destruct x; try discriminate
           end;
      try discriminate; injection H as <-;
      unfold Tap.writeBoolean, Tap.writeString, Tap.writeBytes, Tap.writeLong;
      by rewrite ?put_length.
  - destruct (not_object v); [discriminate|].
    apply bind_Ok in H as (name & _ & H).
    destruct (indices !! name) as [index|]; [|by destruct (inherited name)].
    destruct (types !! index) as [type|]; [|discriminate].
    apply bind_Ok in H as (x & _ & H).
    rewrite (IH _ _ _ _ H). unfold Tap.writeLong. by rewrite put_length.
  - apply bind_Ok in H as ([[i type]|] & _ & H); [|discriminate].
    rewrite (IH _ _ _ _ H). unfold Tap.writeLong. by rewrite put_length.
  - destruct v; try discriminate.
    destruct (indices !! _); [|by destruct (inherited _)]. injection H as <-.
    unfold Tap.writeLong. by rewrite put_length.
  - destruct v; try discriminate. injection H as <-.
    unfold Tap.writeFixed. cbn [buf]. by rewrite put_length.
  - unfold Tap.writeMap in H. apply bind_Ok in H as (keys & _ & H).
    eapply writeBlock_length; [|exact H].
    intros k t0 t1 Hk. apply bind_Ok in Hk as (x & _ & Hk).
    rewrite (IH _ _ _ _ Hk).
    unfold Tap.writeString, Tap.writeBytes, Tap.writeLong. by rewrite !put_length.
  - destruct v; try discriminate. unfold Tap.writeArray in H.
    eapply writeBlock_length; [|exact H]. intros x t0 t1. apply IH.
  - destruct (negb built); [discriminate|].
    eapply writeItems_length; [|exact H].
    intros f t0 t1 Hf. apply bind_Ok in Hf as (x & _ & Hf).
    destruct (field_bound f); [|discriminate]. by apply IH in Hf.
Qed.

(** X13: the buffer of [encode] is never replaced, for no type and no
    value: what [encode] returns is never longer than the [size] it was
    given (1024 without one), with or without [unsafe]. *)
Theorem encode_never_grows (fuel : nat) (h : list node) (l : loc) (v : value)
  (opts : option encode_opts) (bs : list byte) :
  encode fuel h l v opts = Ok bs ->
  (length bs <= initial_size opts)%nat.
Proof.
  rewrite encode_initial_size. intros H.
  apply bind_Ok in H as (valid & _ & H).
  destruct (negb valid); [discriminate|].
  apply bind_Ok in H as (t & Hw & H). injection H as <-.
  apply write_length in Hw. cbn [buf] in Hw. rewrite length_replicate in Hw.
  rewrite length_take. lia.
Qed.

Lemma encode_never_grows_witness :
  (length [x80] <= initial_size (Some (EncodeOpts 1 false)))%nat.
Proof.
  apply (encode_never_grows 1 (heap (createRegistry (new_opts "" false))) 2
           (VNum 64)).
  reflexivity.
Defined.

(** ** What the methods of a record read of an object *)

Lemma every_ext {A} (f g : A -> result bool) xs :
  (forall x, x ∈ xs -> f x = g x) -> every f xs = every g xs.
Proof.
  induction xs as [|x xs IH]; intros H; simpl; [done|].
  rewrite (H x) by apply list_elem_of_here.
  destruct (g x) as [[]| | |]; simpl; try done.
  apply IH. intros y Hy. apply H. by apply list_elem_of_further.
Qed.

Lemma writeItems_ext {A} (f g : A -> tap -> result tap) xs :
  (forall x t, x ∈ xs -> f x t = g x t) ->
  forall t, Tap.writeItems f xs t = Tap.writeItems g xs t.
Proof.
  induction xs as [|x xs IH]; intros H t; simpl; [done|].
  rewrite (H x) by apply list_elem_of_here.
  destruct (g x t) as [t1| | |]; simpl; try done.
  apply IH. intros y t' Hy. apply H. by apply list_elem_of_further.
Qed.

Lemma assoc_app k ps qs :
  assoc k (ps ++ qs) = match assoc k ps with Some v => Some v | None => assoc k qs end.
Proof.
  induction ps as [|[k' v] ps IH]; simpl; [done|].
  by destruct (String.eqb k' k).
Qed.

Lemma assoc_insert_other k k' v ps qs :
  k' <> k -> assoc k' (ps ++ (k, v) :: qs) = assoc k' (ps ++ qs).
Proof.
  intros Hne. rewrite !assoc_app. simpl.
  by destruct (String.eqb_spec k k'); [congruence|].
Qed.

(** X14: the checker and the writer of a record read the declared fields
    of the object and nothing else.  A further property of the object,
    under a key that is no field name, changes neither [isValid] nor what
    [encode] returns: the property is dropped without a word.  (The key
    ['__proto__'] is left aside: an object takes it for its prototype.) *)
Theorem record_ignores_undeclared (fuel : nat) (h : list node) (l : loc)
  (name : string) (doc : value) (fields : list field) (built : bool)
  (ps qs : list (string * value)) (k : string) (v : value)
  (opts : option encode_opts) :
  h !! l = Some (NRecord name doc fields built) ->
  (forall f, f ∈ fields -> field_name f <> k) ->
  k <> "__proto__" ->
  isValid fuel h l (VObj (ps ++ (k, v) :: qs)) = isValid fuel h l (VObj (ps ++ qs))
  /\ encode fuel h l (VObj (ps ++ (k, v) :: qs)) opts
     = encode fuel h l (VObj (ps ++ qs)) opts.
Proof.
  intros Hl Hk _.
  assert (Hget : forall f, f ∈ fields ->
             get_prop (VObj (ps ++ (k, v) :: qs)) (field_name f)
             = get_prop (VObj (ps ++ qs)) (field_name f)).
  { intros f Hf. simpl. by rewrite assoc_insert_other by by apply Hk. }
  assert (Hvalid : isValid fuel h l (VObj (ps ++ (k, v) :: qs))
                   = isValid fuel h l (VObj (ps ++ qs))).
  { unfold isValid. destruct fuel as [|fuel]; [done|].
    cbn [_check]. rewrite Hl. destruct (negb built); [done|].
    cbn [not_object]. apply every_ext. intros f Hf. by rewrite Hget. }
  split; [done|].
  rewrite !encode_initial_size, Hvalid.
  assert (Hwrite : forall t, _write fuel h l (VObj (ps ++ (k, v) :: qs)) t
                             = _write fuel h l (VObj (ps ++ qs)) t).
  { intros t. destruct fuel as [|fuel]; [done|].
    cbn [_write]. rewrite Hl. destruct (negb built); [done|].
    apply writeItems_ext. intros f t' Hf. by rewrite Hget. }
  by rewrite Hwrite.
Qed.

Lemma record_ignores_undeclared_witness :
  isValid 2 record_Pair_heap 8
    (VObj ([("a", VNum 1)] ++ ("c", VBool true) :: [("b", VStr "x")]))
  = isValid 2 record_Pair_heap 8 (VObj ([("a", VNum 1)] ++ [("b", VStr "x")]))
  /\ encode 2 record_Pair_heap 8
       (VObj ([("a", VNum 1)] ++ ("c", VBool true) :: [("b", VStr "x")])) None
     = encode 2 record_Pair_heap 8 (VObj ([("a", VNum 1)] ++ [("b", VStr "x")])) None.
Proof.
  eapply (record_ignores_undeclared 2 record_Pair_heap 8).
  - reflexivity.
  - intros f Hf. apply list_elem_of_In in Hf. simpl in Hf.
    destruct Hf as [<-|[<-|[]]]; discriminate.
  - discriminate.
Defined.

(** X15: the writer of a record puts the default of a field in the place
    of a property that the object does not have.  When the fields called
    like [f] all have the default [d], an object without that property is
    written exactly as the object with [d] under that name.  Here [d] is a
    value that its JSON text gives back, and the name is none that every
    object inherits. *)
Theorem record_default_written (fuel : nat) (h : list node) (l : loc)
  (name : string) (doc : value) (fields : list field) (built : bool)
  (f : field) (d : value) (props : list (string * value)) (t : tap) :
  h !! l = Some (NRecord name doc fields built) ->
  f ∈ fields ->
  (forall g, g ∈ fields -> field_name g = field_name f -> field_default g = d) ->
  json_stable d = true ->
  field_name f ∉ Object_prototype_names ->
  assoc (field_name f) props = None ->
  _write fuel h l (VObj props) t
  = _write fuel h l (VObj (props ++ [(field_name f, d)])) t.
Proof.
  intros Hl Hf Hsame Hd _ Hnone.
  destruct fuel as [|fuel]; [done|]. cbn [_write]. rewrite Hl.
  destruct (negb built); [done|].
  apply writeItems_ext. intros g t' Hg. simpl. rewrite assoc_app. simpl.
  destruct (String.eqb_spec (field_name f) (field_name g)) as [Heq|Hne].
  - rewrite <- Heq, Hnone. simpl. rewrite (Hsame g Hg) by done.
    destruct d; try discriminate; done.
  - by destruct (assoc (field_name g) props).
Qed.

Lemma record_default_written_witness :
  _write 2 record_R_heap 8 (VObj []) (Tap [x00; x00] 0)
  = _write 2 record_R_heap 8 (VObj ([] ++ [("a", VNum 5)])) (Tap [x00; x00] 0).
Proof.
  eapply (record_default_written 2 record_R_heap 8 _ _ _ _
            (Field "a" VUndefined 2 (VNum 5) true) (VNum 5) []).
  - reflexivity.
  - apply list_elem_of_here.
  - intros g Hg _. apply list_elem_of_In in Hg. simpl in Hg.
    destruct Hg as [<-|[]]. reflexivity.
  - reflexivity.
  - intros Hin. apply list_elem_of_In in Hin. simpl in Hin.
    repeat destruct Hin as [Hin|Hin]; try discriminate. done.
  - reflexivity.
Defined.

(** ** Attributes that a schema must have *)

Lemma parse_object fuel props st st1 :
  getOpts (VObj props) st = Ok st1 ->
  parse (S fuel) (VObj props) st
  = parse_complex (parse fuel) fuel (VObj props) st1.
Proof. intros H. simpl. rewrite H. reflexivity. Qed.

Lemma getOpts_attr schema st st1 :
  getOpts schema st = Ok st1 -> exists ns, attr schema "namespace" = Ok ns.
Proof.
  unfold getOpts. intros H. apply bind_Ok in H as (ns & Hns & _). eauto.
Qed.

Lemma has_dot_qualified ns name : has_dot (ns +:+ "." +:+ name) = true.
Proof.
  induction ns as [|c ns IH]; simpl; [done|].
  by destruct (Ascii.eqb c ".").
Qed.

(** X16: the size of a fixed.  [parse] of a [fixed] schema with a name
    throws ['invalid fixed size'] when [size] is a number below [1] or
    above [2^31 - 1], and when it is neither a number nor an object; for
    an object whose own [toString] is no function the conversion of
    [size | 0] throws a [TypeError] first.  With a size from [1] to
    [2^31 - 1] it returns a type whose valid values are the buffers of
    exactly that many bytes. *)
Theorem fixed_size_checked (fuel : nat) (props : list (string * value))
  (st st1 : state) (name : string) (size : value) :
  getOpts (VObj props) st = Ok st1 ->
  get_prop (VObj props) "type" = Ok (VStr "fixed") ->
  attr (VObj props) "name" = Ok name ->
  name <> "" ->
  get_prop (VObj props) "size" = Ok size ->
  (match size with
   | VNum n => n < 1 \/ 2 ^ 31 <= n
   | VObj _ | VArr _ => False
   | _ => True
   end ->
   parse (S fuel) (VObj props) st
   = Throw (AvscError "invalid %j fixed size: %j" [VStr name; size]))
  /\ (forall sprops x,
        size = VObj sprops ->
        assoc "toString" sprops = Some x ->
        (forall f, x <> VFun f) ->
        (forall f, assoc "valueOf" sprops <> Some (VFun f)) ->
        parse (S fuel) (VObj props) st
        = Throw (TypeError "Cannot convert object to primitive value"))
  /\ (forall n, size = VNum n -> 1 <= n < 2 ^ 31 -> name <> "__proto__" ->
      exists l st' q,
        parse (S fuel) (VObj props) st = Ok (l, st')
        /\ heap st' !! l = Some (NFixed q n)
        /\ forall (fuel' : nat) (v : value),
            isValid (S fuel') (heap st') l v = Ok true
            <-> exists bs, v = VBuf bs /\ Z.of_nat (length bs) = n).
Proof.
  intros Hopts Hty Hname Hne Hsize.
  rewrite (parse_object _ _ _ _ Hopts).
  unfold parse_complex. rewrite Hty. cbn [mbind result_bind].
  change (is_primitive "fixed") with false.
  change (String.eqb "fixed" "array") with false.
  change (String.eqb "fixed" "enum") with false.
  change (String.eqb "fixed" "fixed") with true. cbv iota.
  unfold FixedType. rewrite Hname. cbn [mbind result_bind].
  destruct (String.eqb_spec name "") as [?|_]; [done|].
  rewrite Hsize. cbn [mbind result_bind]. split; [|split].
  - intros Hbad. destruct size as [| | |n| | | | |]; try done.
    destruct Hbad as [Hlt|Hge].
    + replace (n <? 1) with true by (symmetry; apply Z.ltb_lt; lia).
      by rewrite orb_true_r.
    + replace (n =? to_int32 n) with false; [done|].
      symmetry. apply Z.eqb_neq. intros Heq.
      apply to_int32_fixpoint in Heq. lia.
  - intros sprops x -> Hts Hx Hvo. simpl. rewrite Hts.
    destruct (assoc "valueOf" sprops) as [[]|] eqn:Hv;
      try (by destruct (Hvo name0)); by destruct x; try (by destruct (Hx name0)).
  - intros n -> Hn Hproto.
    replace (n =? to_int32 n) with true
      by (symmetry; apply Z.eqb_eq, to_int32_fixpoint; lia).
    replace (n <? 1) with false by (symmetry; apply Z.ltb_ge; lia).
    cbn [negb orb]. rewrite (getOpts_again _ _ _ Hopts). cbn [mbind result_bind].
    destruct (getOpts_attr _ _ _ Hopts) as [ns Hns].
    assert (Hq : exists q, getQualifiedName (VObj props) (namespace st1) = Ok q
                           /\ q <> "__proto__").
    { unfold getQualifiedName. rewrite Hname. cbn [mbind result_bind].
      destruct (negb (String.eqb name "") && negb (has_dot name)); [|eauto].
      rewrite Hns. cbn [mbind result_bind].
      destruct (negb _); [|eauto]. eexists. split; [done|].
      intros Heq. pose proof (has_dot_qualified
                                (if String.eqb ns "" then namespace st1 else ns) name) as Hd.
      rewrite Heq in Hd. discriminate. }
    destruct Hq as (q & -> & Hq). cbn [mbind result_bind].
    destruct (String.eqb_spec q "__proto__") as [?|_]; [done|].
    exists (length (heap st1)),
      (register q (length (heap st1)) (alloc (NFixed q n) st1).2), q.
    split; [reflexivity|].
    pose proof (alloc_lookup_new (NFixed q n) st1) as Hl.
    change (heap (alloc (NFixed q n) st1).2)
      with (heap (register q (length (heap st1)) (alloc (NFixed q n) st1).2)) in Hl.
    change (alloc (NFixed q n) st1).1 with (length (heap st1)) in Hl.
    revert Hl.
    generalize (heap (register q (length (heap st1)) (alloc (NFixed q n) st1).2)).
    intros h Hl. split; [exact Hl|].
    intros fuel' v. unfold isValid. cbn [_check]. rewrite Hl.
    split.
    + intros H. destruct v; try discriminate. injection H as H.
      apply Z.eqb_eq in H. eauto.
    + intros (bs & -> & Hlen). f_equal. by apply Z.eqb_eq.
Qed.

Lemma fixed_size_checked_witness :
  (match VNum 4 with
   | VNum n => n < 1 \/ 2 ^ 31 <= n
   | VObj _ | VArr _ => False
   | _ => True
   end ->
   parse 1 fixed_F (new_opts "" false)
   = Throw (AvscError "invalid %j fixed size: %j" [VStr "F"; VNum 4]))
  /\ (forall sprops x,
        VNum 4 = VObj sprops ->
        assoc "toString" sprops = Some x ->
        (forall f, x <> VFun f) ->
        (forall f, assoc "valueOf" sprops <> Some (VFun f)) ->
        parse 1 fixed_F (new_opts "" false)
        = Throw (TypeError "Cannot convert object to primitive value"))
  /\ (forall n, VNum 4 = VNum n -> 1 <= n < 2 ^ 31 -> "F" <> "__proto__" ->
      exists l st' q,
        parse 1 fixed_F (new_opts "" false) = Ok (l, st')
        /\ heap st' !! l = Some (NFixed q n)
        /\ forall (fuel' : nat) (v : value),
            isValid (S fuel') (heap st') l v = Ok true
            <-> exists bs, v = VBuf bs /\ Z.of_nat (length bs) = n).
Proof.
  apply (fixed_size_checked 0
           [("type", VStr "fixed"); ("name", VStr "F"); ("size", VNum 4)]
           (new_opts "" false) (createRegistry (new_opts "" false)) "F" (VNum 4)).
  - reflexivity.
  - reflexivity.
  - reflexivity.
  - discriminate.
  - reflexivity.
Defined.

(** X17: what a schema object cannot do without.  After [getOpts], [parse]
    throws an [AvscError] for a named type without a name, for an array
    without [items], for a map without [values], and for an enum whose
    [symbols] are no array or an empty one. *)
Theorem parse_missing_attribute (fuel : nat) (props : list (string * value))
  (st st1 : state) (ty : string) :
  getOpts (VObj props) st = Ok st1 ->
  get_prop (VObj props) "type" = Ok (VStr ty) ->
  (attr (VObj props) "name" = Ok "" ->
   (ty = "enum" ->
    parse (S fuel) (VObj props) st
    = Throw (AvscError "missing enum name in schema: %j" [VObj props]))
   /\ (ty = "fixed" ->
       parse (S fuel) (VObj props) st
       = Throw (AvscError "missing fixed name: %j" [VObj props]))
   /\ (ty = "record" ->
       parse (S fuel) (VObj props) st
       = Throw (AvscError "missing record name: %j" [VObj props])))
  /\ (ty = "array" ->
      (exists items, get_prop (VObj props) "items" = Ok items
                     /\ truthy items = false) ->
      parse (S fuel) (VObj props) st
      = Throw (AvscError "missing array items: %j" [VObj props]))
  /\ (ty = "map" ->
      (exists values, get_prop (VObj props) "values" = Ok values
                      /\ truthy values = false) ->
      parse (S fuel) (VObj props) st
      = Throw (AvscError "missing map values: %j" [VObj props]))
  /\ (forall name symbols,
        ty = "enum" -> attr (VObj props) "name" = Ok name -> name <> "" ->
        get_prop (VObj props) "symbols" = Ok symbols ->
        match symbols with VArr (_ :: _) => False | _ => True end ->
        parse (S fuel) (VObj props) st
        = Throw (AvscError "invalid %j enum symbols: %j" [VStr name; VObj props])).
Proof.
  intros Hopts Hty. rewrite (parse_object _ _ _ _ Hopts).
  unfold parse_complex. rewrite Hty. cbn [mbind result_bind].
  split; [|split; [|split]].
  - intros Hname. split; [|split]; intros ->; cbv iota beta;
      [change (is_primitive "enum") with false
      |change (is_primitive "fixed") with false
      |change (is_primitive "record") with false];
      cbn [String.eqb Ascii.eqb Bool.eqb]; cbv iota;
      [unfold EnumType|unfold FixedType|unfold RecordType];
      by rewrite Hname.
  - intros -> (items & Hitems & Hfalsy).
    change (is_primitive "array") with false.
    cbn [String.eqb Ascii.eqb Bool.eqb]. cbv iota.
    unfold ArrayType. rewrite Hitems. cbn [mbind result_bind].
    by rewrite Hfalsy.
  - intros -> (values & Hvalues & Hfalsy).
    change (is_primitive "map") with false.
    cbn [String.eqb Ascii.eqb Bool.eqb]. cbv iota.
    unfold MapType. rewrite Hvalues. cbn [mbind result_bind].
    by rewrite Hfalsy.
  - intros name symbols -> Hname Hne Hsymbols Hbad.
    change (is_primitive "enum") with false.
    cbn [String.eqb Ascii.eqb Bool.eqb]. cbv iota.
    unfold EnumType. rewrite Hname. cbn [mbind result_bind].
    destruct (String.eqb_spec name "") as [?|_]; [done|].
    rewrite Hsymbols. cbn [mbind result_bind].
    by destruct symbols as [| | | | | |[|? ?]| |].
Qed.

Lemma parse_missing_attribute_witness :
  parse 1 (VObj [("type", VStr "array")]) (new_opts "" false)
  = Throw (AvscError "missing array items: %j" [VObj [("type", VStr "array")]]).
Proof.
  apply (parse_missing_attribute 0 [("type", VStr "array")] (new_opts "" false)
           (createRegistry (new_opts "" false)) "array"
           eq_refl eq_refl).
  - reflexivity.
  - exists VUndefined. split; reflexivity.
Defined.

(** ** Defaults that the writer of a record refuses *)

Lemma parse_record fuel schema st st1 :
  getOpts schema st = Ok st1 ->
  get_prop schema "type" = Ok (VStr "record") ->
  parse (S fuel) schema st = RecordType (parse fuel) fuel schema st1.
Proof.
  intros Hopts Hty. simpl. rewrite Hopts. cbn [mbind result_bind].
  destruct schema; try (simpl in Hty; discriminate);
    unfold parse_complex; by rewrite Hty.
Qed.

(** X18: [generateWriter] throws for a default on a [bytes] or a [fixed]
    field, so no record gets past it with one.  In a record that [parse]
    returns, a field that has a default has a type that is neither [bytes]
    nor a fixed. *)
Theorem record_no_bytes_default (fuel : nat) (schema : value) (st st' : state)
  (l : loc) :
  parse fuel schema st = Ok (l, st') ->
  get_prop schema "type" = Ok (VStr "record") ->
  exists name doc fields,
    heap st' !! l = Some (NRecord name doc fields true)
    /\ forall f n,
        f ∈ fields ->
        field_default f <> VUndefined ->
        heap st' !! field_type f = Some n ->
        getTypeName n <> Some "bytes" /\ getTypeName n <> Some "fixed".
Proof.
  intros H Hty. destruct fuel as [|fuel]; [discriminate|].
  assert (Hopts : exists st1, getOpts schema st = Ok st1).
  { simpl in H. apply bind_Ok in H as (st1 & Hopts & _). eauto. }
  destruct Hopts as [st1 Hopts]. rewrite (parse_record _ _ _ _ Hopts Hty) in H.
  unfold RecordType in H. apply bind_Ok in H as (name & _ & H).
  destruct (String.eqb name ""); [discriminate|].
  apply bind_Ok in H as (st2 & _ & H).
  apply bind_Ok in H as (q & _ & H).
  apply bind_Ok in H as (doc & _ & H).
  destruct (String.eqb q "__proto__"); [discriminate|].
  apply bind_Ok in H as (entries & _ & H).
  destruct entries as [| | | | | |entries| |]; try discriminate.
  apply bind_Ok in H as ([fields stb] & Hfields & H).
  destruct (negb _); [discriminate|].
  destruct (existsb _ _) eqn:Hex; [discriminate|].
  injection H as <- <-.
  set (self := length (heap st2)) in *.
  set (node0 := NRecord q doc [] false) in *.
  assert (Hext : extends (register q self (alloc node0 st2).2) stb).
  { eapply parse_each_extends; [|exact Hfields].
    intros x s y s'. apply RecordType_field_extends. apply parse_extends. }
  assert (Hself : heap stb !! self = Some node0).
  { eapply prefix_lookup_Some; [|apply Hext].
    exact (alloc_lookup_new node0 st2). }
  exists q, doc, (map (bind_field (heap stb)) fields). split.
  - simpl. apply list_lookup_insert_eq. by eapply lookup_lt_Some.
  - intros f n Hf Hdef Hn.
    assert (Hf' : default_unsupported (heap stb) f = false).
    { destruct (default_unsupported (heap stb) f) eqn:Hd; [|done].
      assert (existsb (default_unsupported (heap stb))
                (map (bind_field (heap stb)) fields) = true); [|congruence].
      apply existsb_exists. exists f. split; [by apply list_elem_of_In|done]. }
    unfold default_unsupported in Hf'.
    destruct (field_default f); try done; simpl in Hf'.
    all: simpl in Hn.
    all: destruct (decide (self = field_type f)) as [Heq|Hne];
      [rewrite <- Heq in Hn;
       rewrite list_lookup_insert_eq in Hn by (by eapply lookup_lt_Some);
       injection Hn as <-; split; discriminate
      |rewrite list_lookup_insert_ne in Hn by (exact Hne);
       rewrite Hn in Hf'; apply orb_false_elim in Hf' as [H1 H2];
       apply bool_decide_eq_false in H1, H2; done].
Qed.

Lemma record_no_bytes_default_witness :
  exists name doc fields,
    heap (register "R" 8 (plain_state record_R_heap false)) !! 8%nat
    = Some (NRecord name doc fields true)
    /\ forall f n,
        f ∈ fields ->
        field_default f <> VUndefined ->
        heap (register "R" 8 (plain_state record_R_heap false)) !! field_type f
        = Some n ->
        getTypeName n <> Some "bytes" /\ getTypeName n <> Some "fixed".
Proof.
  apply (record_no_bytes_default 2 record_R (new_opts "" false)).
  - vm_compute. reflexivity.
  - reflexivity.
Defined.

(** ** A named type called like a primitive *)

Lemma enum_fixed_state fuel schema st l st' ty :
  parse fuel schema st = Ok (l, st') ->
  get_prop schema "type" = Ok (VStr ty) ->
  ty ∈ ["enum"; "fixed"] ->
  exists st1, getOpts schema st = Ok st1
              /\ namespace st' = namespace st1 /\ is_Some (registry st').
Proof.
  intros H Hty Hin. destruct fuel as [|fuel]; [discriminate|].
  simpl in H. apply bind_Ok in H as (st1 & Hopts & H).
  pose proof (getOpts_again _ _ _ Hopts) as Hagain.
  assert (Hc : parse_complex (parse fuel) fuel schema st1 = Ok (l, st')).
  { destruct schema; try done; simpl in Hty; discriminate. }
  clear H. unfold parse_complex in Hc. rewrite Hty in Hc. simpl in Hc.
  exists st1. split; [done|].
  apply elem_of_cons in Hin as [->|Hin].
  - simpl in Hc.
    apply EnumType_spec in Hc as (st2 & q & doc & symbols & indices & Ho & _ & -> & ->).
    rewrite Hagain in Ho. injection Ho as <-. simpl. eauto.
  - apply elem_of_cons in Hin as [->|Hin]; [|by apply elem_of_nil in Hin].
    simpl in Hc.
    apply FixedType_spec in Hc as (st2 & q & size & Ho & _ & -> & ->).
    rewrite Hagain in Ho. injection Ho as <-. simpl. eauto.
Qed.

(** X19: the registry does not keep the names of the primitives for
    them.  An enum or a fixed that is declared, outside of any namespace,
    under the name of a primitive takes its place: from then on both the
    reference by that name and a schema with that [type] give the declared
    type and not the primitive. *)
Theorem primitive_name_taken (fuel fuel' : nat) (schema : value)
  (st st' : state) (l : loc) (ty p : string) :
  parse fuel schema st = Ok (l, st') ->
  get_prop schema "type" = Ok (VStr ty) ->
  ty ∈ ["enum"; "fixed"] ->
  attr schema "name" = Ok p ->
  p ∈ PRIMITIVES ->
  attr schema "namespace" = Ok "" ->
  namespace st = "" ->
  (exists n, heap st' !! l = Some n /\ getTypeName n = Some ty)
  /\ parse (S fuel') (VStr p) st' = Ok (l, st')
  /\ parse (S fuel') (VObj [("type", VStr p)]) st' = Ok (l, st').
Proof.
  intros H Hty Hin Hname Hp Hns Hst.
  assert (Hin3 : ty ∈ ["enum"; "fixed"; "record"]).
  { apply list_elem_of_In. apply list_elem_of_In in Hin. simpl in *. tauto. }
  destruct (named_type_registered _ _ _ _ _ _ H Hty Hin3)
    as (st1 & q & n & l' & n' & Hopts & Hq & Hn & _ & Hn_ty & Hl' & _ & _ & _ & Heq).
  destruct (enum_fixed_state _ _ _ _ _ _ H Hty Hin) as (st1' & Hopts' & Hns' & Hreg).
  rewrite Hopts in Hopts'. injection Hopts' as <-.
  assert (Hrec : ty <> "record").
  { intros ->. apply list_elem_of_In in Hin. simpl in Hin.
    destruct Hin as [?|[?|[]]]; discriminate. }
  rewrite (Heq Hrec) in Hl'. clear Heq l' n'.
  assert (Hnodot : has_dot p = false /\ is_primitive p = true /\ p <> "").
  { apply list_elem_of_In in Hp. simpl in Hp.
    repeat destruct Hp as [<-|Hp]; try done. }
  destruct Hnodot as (Hdot & Hprim & Hne).
  assert (Hns1 : namespace st1 = "").
  { unfold getOpts in Hopts. rewrite Hns in Hopts. simpl in Hopts.
    injection Hopts as <-. simpl. by destruct (registry st). }
  assert (q = p) as ->.
  { unfold getQualifiedName in Hq. rewrite Hname in Hq.
    cbn [mbind result_bind] in Hq. rewrite Hdot in Hq.
    destruct (String.eqb_spec p "") as [?|_]; [done|].
    cbn [negb andb] in Hq. rewrite Hns in Hq. cbn [mbind result_bind] in Hq.
    rewrite Hns1 in Hq. simpl in Hq. congruence. }
  rewrite Hns1 in Hns'.
  split; [eauto|]. split.
  - apply parse_reference; [done|done|by left].
  - assert (Ho : getOpts (VObj [("type", VStr p)]) st' = Ok st').
    { destruct Hreg as [r Hr]. unfold getOpts. rewrite Hr. simpl.
      by destruct st'. }
    rewrite (parse_object _ _ _ _ Ho). unfold parse_complex. simpl.
    by rewrite Hprim, Hl'.
Qed.

Lemma primitive_name_taken_witness :
  (exists n, heap enum_int_state !! 8%nat = Some n /\ getTypeName n = Some "enum")
  /\ parse 1 (VStr "int") enum_int_state = Ok (8%nat, enum_int_state)
  /\ parse 1 (VObj [("type", VStr "int")]) enum_int_state
     = Ok (8%nat, enum_int_state).
Proof.
  apply (primitive_name_taken 1 0 enum_int (new_opts "" false) enum_int_state
           8 "enum" "int").
  - vm_compute. reflexivity.
  - reflexivity.
  - apply list_elem_of_here.
  - reflexivity.
  - apply list_elem_of_In. simpl. tauto.
  - reflexivity.
  - reflexivity.
Defined.

(** ** The first key of a wrapped union value *)

(** X20: the checker and the writer of a wrapped union look at the first
    own key of the object and at nothing after it.  An object with further
    keys is valid exactly when the object with the first key alone is, and
    [encode] returns the same for both: the further keys are dropped. *)
Theorem wrapped_union_first_key_only (fuel : nat) (h : list node) (l : loc)
  (types : list loc) (indices : gmap string nat)
  (constructors : list (option string)) (k : string) (v : value)
  (rest : list (string * value)) (opts : option encode_opts) :
  h !! l = Some (NWrappedUnion types indices constructors) ->
  isValid fuel h l (VObj ((k, v) :: rest)) = isValid fuel h l (VObj [(k, v)])
  /\ encode fuel h l (VObj ((k, v) :: rest)) opts
     = encode fuel h l (VObj [(k, v)]) opts.
Proof.
  intros Hl.
  assert (Hvalid : isValid fuel h l (VObj ((k, v) :: rest))
                   = isValid fuel h l (VObj [(k, v)])).
  { unfold isValid. destruct fuel as [|fuel]; [done|].
    cbn [_check]. rewrite Hl. simpl. by rewrite String.eqb_refl. }
  split; [done|].
  rewrite !encode_initial_size, Hvalid.
  assert (Hwrite : forall t, _write fuel h l (VObj ((k, v) :: rest)) t
                             = _write fuel h l (VObj [(k, v)]) t).
  { intros t. destruct fuel as [|fuel]; [done|].
    cbn [_write]. rewrite Hl. simpl. by rewrite String.eqb_refl. }
  by rewrite Hwrite.
Qed.

Lemma wrapped_union_first_key_only_witness :
  isValid 2 null_or_string_heap 8 (VObj [("string", VStr "a"); ("null", VNull)])
  = isValid 2 null_or_string_heap 8 (VObj [("string", VStr "a")])
  /\ encode 2 null_or_string_heap 8
       (VObj [("string", VStr "a"); ("null", VNull)]) None
     = encode 2 null_or_string_heap 8 (VObj [("string", VStr "a")]) None.
Proof.
  eapply (wrapped_union_first_key_only 2 null_or_string_heap 8).
  reflexivity.
Defined.

(** ** A fixed and the end of the buffer *)

(** X21: [decode] of a fixed takes the first [size] bytes of the buffer, and
    throws ['truncated buffer'] when the buffer has fewer. *)
Theorem fixed_decode (fuel : nat) (h : list node) (l : loc) (name : string)
  (size : Z) (bs : list byte) :
  h !! l = Some (NFixed name size) ->
  0 <= size ->
  decode (S fuel) h l bs
  = if Z.of_nat (length bs) <? size then Throw (Error "truncated buffer" [])
    else Ok (VBuf (take (Z.to_nat size) bs)).
Proof.
  intros Hl Hsize. unfold decode. cbn [_read]. rewrite Hl.
  unfold Tap.readFixed, Tap.rest, Tap.skip, Tap.isValid.
  cbn [buf pos mbind result_bind drop Nat.add].
  destruct (Z.ltb_spec (Z.of_nat (length bs)) size) as [Hlt|Hge].
  - replace (Z.to_nat size <=? length bs)%nat with false; [done|].
    symmetry. apply Nat.leb_gt. lia.
  - replace (Z.to_nat size <=? length bs)%nat with true; [done|].
    symmetry. apply Nat.leb_le. lia.
Qed.

Lemma fixed_decode_witness :
  decode 1 (primitive_nodes ++ [NFixed "F" 4]) 8 [x01; x02]
  = if Z.of_nat (length [x01; x02]) <? 4 then Throw (Error "truncated buffer" [])
    else Ok (VBuf (take (Z.to_nat 4) [x01; x02])).
Proof.
  apply (fixed_decode 0 (primitive_nodes ++ [NFixed "F" 4]) 8 "F" 4 [x01; x02]).
  - reflexivity.
  - lia.
Defined.
